(** * Whirl / MobSin: object registry, container tree and update scheduler

    A shallow embedding of
    - [ObjectManager] (add, get, _destroy),
    - [Container] (the [child.onAdd] hook and [calculateDerived]),
    - [UpdateManager] (_start, _stop, _update),
    over an explicit JavaScript object heap: an object is a heap cell named by
    its reference, [===] and [Array.prototype.includes] compare references,
    and a field assignment updates the cell in place.  JavaScript numbers
    that hold coordinates, opacities, scales and clock readings are IEEE 754
    binary64 floats ([PrimFloat.float]).  The two counters ([_index],
    [_frameCount]) are JavaScript numbers too; they start at 0, only [++]
    changes them, and they hold integers, which are kept in [Z] with the
    binary64 sum written out ([increment]): exact up to 2^53, where the
    counter stops growing. *)

From Stdlib Require Import ZArith Floats.PrimFloat.
From stdpp Require Import gmap list option strings sorting.

#[local] Open Scope Z_scope.

(** ** Integer counters in binary64

    A binary64 number has 53 significant bits: every integer of magnitude up
    to 2^53 is a number, a larger one is rounded to the nearest integer with
    53 significant bits, ties to the even significand (the exponent range,
    which ends near 2^1024, is out of a counter's reach and is left out). *)

Definition two_53 : Z := 9007199254740992.

(** The binary64 number nearest to the integer [z]. *)
Definition round53 (z : Z) : Z :=
  let a := Z.abs z in
  if a <? two_53 then z
  else
    let e := Z.log2 a - 52 in
    let q := a / 2 ^ e in
    let r := a mod 2 ^ e in
    let half := 2 ^ (e - 1) in
    let q' := if (half <? r) || ((r =? half) && Z.odd q) then q + 1 else q in
    Z.sgn z * (q' * 2 ^ e).

(** The value [x++] leaves in a counter [x] that holds the integer [z]: the
    binary64 sum [z + 1]. *)
Definition increment (z : Z) : Z := round53 (z + 1).

(** ** JavaScript values, exceptions

    A number is [VNum] when it is a float and [VInt] when it is one of the
    integer counters. *)

Abbreviation ref := nat (only parsing).

Inductive value :=
  | VUndefined
  | VNull
  | VBool (b : bool)
  | VNum (n : float)
  | VInt (z : Z)
  | VObj (r : ref).

Inductive error :=
  | TypeError.

Inductive result (A : Type) :=
  | Ok (a : A)
  | Throw (e : error).
Arguments Ok {A} a.
Arguments Throw {A} e.

Global Instance result_ret : MRet result := λ A a, Ok a.
Global Instance result_bind : MBind result := λ A B f m,
  match m with
  | Ok a => f a
  | Throw e => Throw e
  end.

(** ** Classes and [instanceof]

    [Plain] stands for every object that does not inherit from [Base].
    [Container extends Entity] is in Container.js; [Entity extends Base],
    [Stage extends Container] and [Viewport extends Base] follow the data
    model of the specification (those class files are not part of the
    sources at hand). *)

Inductive class :=
  | Plain
  | Base
  | Viewport
  | Entity
  | Container
  | Stage.

Global Instance class_eq_dec : EqDecision class.
Proof. solve_decision. Defined.

Definition instanceof_Base (c : class) : bool :=
  match c with Plain => false | _ => true end.

Definition instanceof_Viewport (c : class) : bool :=
  match c with Viewport => true | _ => false end.

Definition instanceof_Entity (c : class) : bool :=
  match c with Entity | Container | Stage => true | _ => false end.

Definition instanceof_Stage (c : class) : bool :=
  match c with Stage => true | _ => false end.

(** Only containers (and stages) carry the [child] mixin. *)
Definition has_child_mixin (c : class) : bool :=
  match c with Container | Stage => true | _ => false end.

(** ** Objects *)

Module Point.
Record t := mk { x : float; y : float }.
End Point.

Module Derived.
Record t := mk { x : float; y : float; alpha : float; scale : float }.
End Derived.

(** One record for every object of the engine; a field a class does not
    declare keeps its initial value.  [_id] is [None] while the property is
    [undefined]; [stage] and [parent] are [None] while they are [null] or
    [undefined]; [children] is the list held by the [child] mixin. *)
Record object := mkObject {
  cls : class;
  _id : option Z;
  stage : option ref;
  parent : option ref;
  children : list ref;
  position : Point.t;
  alpha : float;
  scale : float;
  derived : Derived.t;
}.

Definition set__id (v : option Z) (o : object) : object :=
  mkObject (cls o) v (stage o) (parent o) (children o)
           (position o) (alpha o) (scale o) (derived o).

Definition setStage (v : option ref) (o : object) : object :=
  mkObject (cls o) (_id o) v (parent o) (children o)
           (position o) (alpha o) (scale o) (derived o).

Definition set_parent (v : option ref) (o : object) : object :=
  mkObject (cls o) (_id o) (stage o) v (children o)
           (position o) (alpha o) (scale o) (derived o).

Definition set_children (v : list ref) (o : object) : object :=
  mkObject (cls o) (_id o) (stage o) (parent o) v
           (position o) (alpha o) (scale o) (derived o).

Definition set_derived (v : Derived.t) (o : object) : object :=
  mkObject (cls o) (_id o) (stage o) (parent o) (children o)
           (position o) (alpha o) (scale o) v.

(** A freshly constructed object of class [c]: [alpha = 1], [scale = 1],
    position [(0, 0)], no parent, no children, not yet registered. *)
Definition new_object (c : class) : object :=
  mkObject c None None None []
           (Point.mk 0 0) 1%float 1%float (Derived.mk 0 0 0 0).

Abbreviation heap := (gmap ref object) (only parsing).

(** [v instanceof K] for a class test [K]; primitives are instances of
    nothing. *)
Definition instanceof (h : heap) (v : value) (K : class → bool) : bool :=
  match v with
  | VObj r => match h !! r with Some o => K (cls o) | None => false end
  | _ => false
  end.

(** [item._id] for a stored reference. *)
Definition id_of (h : heap) (r : ref) : option Z := h !! r ≫= _id.

(** ** The game instance

    [heap] holds every object; [_index], [_store], [_viewports], [_stages]
    are the ObjectManager's fields; [setup_viewport] and [setup_stage] are
    [game.setup.viewport] and [game.setup.stage]; [emitted] records the
    calls of [game.event.emit] and [warnings] those of [game.debug.warn], in
    call order. *)

Inductive event :=
  | didDestroy (object : value).

Record game := mkGame {
  heap_of : heap;
  _index : Z;
  _store : list ref;
  _viewports : list ref;
  _stages : list ref;
  setup_viewport : option ref;
  setup_stage : option ref;
  emitted : list event;
  warnings : list (string * string);
}.

Definition set_heap (v : heap) (g : game) : game :=
  mkGame v (_index g) (_store g) (_viewports g) (_stages g)
         (setup_viewport g) (setup_stage g) (emitted g) (warnings g).

Definition set__index (v : Z) (g : game) : game :=
  mkGame (heap_of g) v (_store g) (_viewports g) (_stages g)
         (setup_viewport g) (setup_stage g) (emitted g) (warnings g).

Definition set__store (v : list ref) (g : game) : game :=
  mkGame (heap_of g) (_index g) v (_viewports g) (_stages g)
         (setup_viewport g) (setup_stage g) (emitted g) (warnings g).

Definition set__viewports (v : list ref) (g : game) : game :=
  mkGame (heap_of g) (_index g) (_store g) v (_stages g)
         (setup_viewport g) (setup_stage g) (emitted g) (warnings g).

Definition set__stages (v : list ref) (g : game) : game :=
  mkGame (heap_of g) (_index g) (_store g) (_viewports g) v
         (setup_viewport g) (setup_stage g) (emitted g) (warnings g).

Definition set_setup_viewport (v : option ref) (g : game) : game :=
  mkGame (heap_of g) (_index g) (_store g) (_viewports g) (_stages g)
         v (setup_stage g) (emitted g) (warnings g).

Definition set_setup_stage (v : option ref) (g : game) : game :=
  mkGame (heap_of g) (_index g) (_store g) (_viewports g) (_stages g)
         (setup_viewport g) v (emitted g) (warnings g).

(** [game.event.emit(name, payload)]: the emission is recorded; what the
    subscribers do with it is outside the engine. *)
Definition emit (e : event) (g : game) : game :=
  mkGame (heap_of g) (_index g) (_store g) (_viewports g) (_stages g)
         (setup_viewport g) (setup_stage g) (emitted g ++ [e]) (warnings g).

(** Modelled from the spec: [DebugManager.warn] (DebugManager.js is not
    among the sources).  A rejection is "logged" and the operation is
    "aborted with a falsy failure signal": the call records the message with
    its source tag and evaluates to [undefined]. *)
Definition warn (message source : string) (g : game) : game * value :=
  (mkGame (heap_of g) (_index g) (_store g) (_viewports g) (_stages g)
          (setup_viewport g) (setup_stage g) (emitted g)
          (warnings g ++ [(message, source)]),
   VUndefined).

(** [g'] is [g] with one more warning logged, and nothing else changed. *)
Definition only_warned (g g' : game) : Prop :=
  heap_of g' = heap_of g ∧ _index g' = _index g ∧
  _store g' = _store g ∧ _viewports g' = _viewports g ∧ _stages g' = _stages g ∧
  setup_viewport g' = setup_viewport g ∧ setup_stage g' = setup_stage g ∧
  emitted g' = emitted g ∧
  ∃ w, warnings g' = warnings g ++ [w].

(** JavaScript truthiness of the values used here. *)
Definition truthy (v : value) : bool :=
  match v with
  | VUndefined | VNull => false
  | VBool b => b
  | VNum n => negb (is_zero n || is_nan n)
  | VInt z => negb (z =? 0)
  | VObj _ => true
  end.

(** [v === false]. *)
Definition is_false (v : value) : bool :=
  match v with
  | VBool false => true
  | _ => false
  end.

(** The state a game instance starts in. *)
Definition new_game (h : heap) : game :=
  mkGame h 0 [] [] [] None None [] [].

(** ** ObjectManager (MobSin.js, lines 30-182) *)

Module ObjectManager.

(** [add(object)], lines 92-115.  Both guards return the value of
    [game.debug.warn]; the accepting path falls off the end of the method
    and yields [undefined]. *)
Definition add (g : game) (object : value) : result (game * value) :=
  if negb (instanceof (heap_of g) object instanceof_Base) then
    Ok (warn "Objects under a game instance must inherit from the Base object class."
             "Whirl.Game#ObjectManager" g)
  else
    match object with
    | VObj r =>
        if bool_decide (r ∈ _store g) then
          Ok (warn "Object already exists in the global store. Rejecting attempt to add."
                   "Whirl.Game#ObjectManager" g)
        else
          let g1 := set_heap (alter (set__id (Some (_index g))) r (heap_of g)) g in
          let g2 := set__index (increment (_index g1)) g1 in
          let g3 := set__store (_store g2 ++ [r]) g2 in
          let g4 := if instanceof (heap_of g3) object instanceof_Viewport
                    then set__viewports (_viewports g3 ++ [r]) g3 else g3 in
          let g5 := if instanceof (heap_of g4) object instanceof_Stage
                    then set__stages (_stages g4 ++ [r]) g4 else g4 in
          Ok (g5, VUndefined)
    | _ =>
        Ok (warn "Objects under a game instance must inherit from the Base object class."
                 "Whirl.Game#ObjectManager" g)
    end.

(** [get(filter)], lines 133-139: a fresh array with the stored objects,
    filtered when a filter is given. *)
Definition get (g : game) (filter : option (ref → bool)) : list ref :=
  match filter with
  | Some f => List.filter f (_store g)
  | None => _store g
  end.

(** The test [object._id !== item._id] of the three [filter] calls. *)
Definition differs (h : heap) (id : option Z) (item : ref) : Prop :=
  id ≠ id_of h item.

Global Instance differs_dec h id item : Decision (differs h id item).
Proof. unfold differs. apply _. Defined.

(** Modelled from the spec: [Viewport.setStage(null)] (Viewport.js is not
    among the sources) "clears the binding" of the viewport; the loop is the
    [forEach] of lines 166-170. *)
Definition unbind (x : ref) (h : heap) (viewport : ref) : heap :=
  match h !! viewport with
  | Some o =>
      if bool_decide (stage o = Some x) then alter (setStage None) viewport h else h
  | None => h
  end.

Definition unbind_all (x : ref) (viewports : list ref) (h : heap) : heap :=
  foldl (unbind x) h viewports.

(** [_destroy(object)], lines 152-181.  [object._id] is read inside the
    callback of [filter], once for each stored item: through [undefined] or
    [null] the read raises a TypeError, before [_store] is assigned, when the
    store holds an item, and is never made when the store is empty, in which
    case the call goes on to emit [didDestroy].  On a boolean or a number the
    read gives [undefined]; on all four every [instanceof] test fails.  A
    reference that names no object is not a JavaScript value; the call is
    made to raise on it. *)
Definition _destroy (g : game) (object : value) : result (game * value) :=
  match object with
  | VObj x =>
      match heap_of g !! x with
      | None => Throw TypeError
      | Some o =>
          let g1 := set__store (filter (differs (heap_of g) (_id o)) (_store g)) g in
          let g2 :=
            if instanceof_Viewport (cls o) then
              let g' := set__viewports
                          (filter (differs (heap_of g1) (_id o)) (_viewports g1)) g1 in
              if bool_decide (setup_viewport g' = Some x)
              then set_setup_viewport None g' else g'
            else g1 in
          let g3 :=
            if instanceof_Stage (cls o) then
              let g' := set__stages
                          (filter (differs (heap_of g2) (_id o)) (_stages g2)) g2 in
              let g'' := set_heap (unbind_all x (_viewports g') (heap_of g')) g' in
              if bool_decide (setup_stage g'' = Some x)
              then set_setup_stage None g'' else g''
            else g2 in
          Ok (emit (didDestroy object) g3, object)
      end
  | VBool _ | VNum _ | VInt _ =>
      let g1 := set__store (filter (differs (heap_of g) None) (_store g)) g in
      Ok (emit (didDestroy object) g1, object)
  | VUndefined | VNull =>
      match _store g with
      | [] =>
          let g1 := set__store [] g in
          Ok (emit (didDestroy object) g1, object)
      | _ :: _ => Throw TypeError
      end
  end.

(** A sequence of calls made on the manager; a call that throws leaves the
    manager as it was (the exception is raised before any assignment). *)
Inductive call :=
  | Add (object : value)
  | Destroy (object : value).

Definition run_call (g : game) (c : call) : game :=
  match (match c with Add v => add g v | Destroy v => _destroy g v end) with
  | Ok (g', _) => g'
  | Throw _ => g
  end.

Definition run (g : game) (cs : list call) : game := foldl run_call g cs.

(** [object] passes both guards of [add]. *)
Definition accepts (g : game) (object : value) : bool :=
  instanceof (heap_of g) object instanceof_Base &&
  match object with
  | VObj r => negb (bool_decide (r ∈ _store g))
  | _ => false
  end.

(** The id handed out by one call, with the object that received it: an
    [add] that passes both guards assigns one, read back from the object's
    [_id] right after the call; every other call assigns nothing. *)
Definition assigned (g : game) (c : call) : list (ref * Z) :=
  match c with
  | Add (VObj r) =>
      if accepts g (VObj r) then
        match id_of (heap_of (run_call g c)) r with
        | Some i => [(r, i)]
        | None => []
        end
      else []
  | _ => []
  end.

(** The ids assigned over a sequence of calls, in call order. *)
Fixpoint assigned_ids (g : game) (cs : list call) : list (ref * Z) :=
  match cs with
  | [] => []
  | c :: cs' => assigned g c ++ assigned_ids (run_call g c) cs'
  end.

(** Every stored reference names an object that has been given an id, as
    [add] leaves them. *)
Definition ids_defined (g : game) : Prop :=
  ∀ y, y ∈ _store g ++ _viewports g ++ _stages g → is_Some (id_of (heap_of g) y).

End ObjectManager.

(** ** Container (Container.js) *)

Module Container.

(** The heap a detach leaves when it finds the child [e] in the list that
    the container [p], whose cell is [op], holds: the list without [e], and
    [e.parent] cleared. *)
Definition detached (h : heap) (p e : ref) (op : object) : heap :=
  alter (set_parent None) e
    (alter (set_children (filter (λ c, c ≠ e) (children op))) p h).

(** Modelled from the spec: [child.remove] of the ChildMixin (the mixin is
    not among the sources).  "Detaching removes the child from the parent's
    ordered sequence and clears its parent back-reference.  Detaching a
    child that is not actually present is a no-op."  A receiver without the
    mixin has no [child] property: the call raises. *)
Definition child_remove (g : game) (this object : ref) : result game :=
  match heap_of g !! this with
  | Some o =>
      if has_child_mixin (cls o) then
        if bool_decide (object ∈ children o)
        then Ok (set_heap (detached (heap_of g) this object o) g)
        else Ok g
      else Throw TypeError
  | None => Throw TypeError
  end.

(** The hook [this.child.onAdd], lines 48-63 of Container.js. *)
Definition onAdd (g : game) (this : ref) (object : value) : result (game * value) :=
  let reject :=
    let '(g', _) :=
      warn "Objects added to a Container must inherit from the Entity class. Rejecting attempt to add object as child."
           "Whirl.Container" g in
    Ok (g', VBool false) in
  match object with
  | VObj e =>
      match heap_of g !! e with
      | Some oe =>
          if instanceof_Entity (cls oe) then
            g1 ← match parent oe with
                 | Some p => child_remove g p e
                 | None => Ok g
                 end;
            Ok (set_heap (alter (set_parent (Some this)) e (heap_of g1)) g1, VUndefined)
          else reject
      | None => reject
      end
  | _ => reject
  end.

(** Modelled from the spec: [child.add] of the ChildMixin, for one object.
    The hook runs first; when it answers [false] the attach "is rejected and
    reports failure to the caller without mutating any state", otherwise the
    object is "appended to the new parent's list". *)
Definition child_add (g : game) (this : ref) (object : value) : result (game * bool) :=
  match heap_of g !! this with
  | Some o =>
      if has_child_mixin (cls o) then
        '(g1, r) ← onAdd g this object;
        if is_false r then Ok (g1, false)
        else
          match object with
          | VObj e =>
              Ok (set_heap (alter (λ o', set_children (children o' ++ [e]) o')
                                  this (heap_of g1)) g1, true)
          | _ => Ok (g1, false)
          end
      else Throw TypeError
  | None => Throw TypeError
  end.

(** The heap the two writes of an accepted attach leave: the [parent]
    reference, then the append. *)
Definition attached (h : heap) (this e : ref) : heap :=
  alter (λ o', set_children (children o' ++ [e]) o') this
    (alter (set_parent (Some this)) e h).

(** [calculateDerived()], lines 68-82.  The parent's snapshot is read after
    the four assignments to [this.derived], through the heap, as the source
    does. *)
Definition calculateDerived (h : heap) (this : ref) : result heap :=
  match h !! this with
  | None => Throw TypeError
  | Some o =>
      let d := Derived.mk (Point.x (position o)) (Point.y (position o))
                          (alpha o) (scale o) in
      let h1 := <[this := set_derived d o]> h in
      match parent o with
      | Some p =>
          match h1 !! p with
          | Some po =>
              if instanceof_Entity (cls po) then
                let pd := derived po in
                let d' := Derived.mk (Derived.x d + Derived.x pd)
                                     (Derived.y d + Derived.y pd)
                                     (Derived.alpha d * Derived.alpha pd)
                                     (Derived.scale d * Derived.scale pd) in
                Ok (<[this := set_derived d' o]> h1)
              else Ok h1
          | None => Ok h1
          end
      | None => Ok h1
      end
  end.

(** Modelled from the spec: the derived-transform pass (the render manager
    is not among the sources) "must visit nodes in a top-down
    (root-before-descendants) order, recomputing each container before
    recursing into its children"; [order] is that visiting order. *)
Definition derive_pass (h : heap) (order : list ref) : result heap :=
  foldl (λ r n, h' ← r; calculateDerived h' n) (Ok h) order.

(** The entity's own values, as the first four assignments write them. *)
Definition own (o : object) : Derived.t :=
  Derived.mk (Point.x (position o)) (Point.y (position o)) (alpha o) (scale o).

(** [this.parent instanceof Entity]. *)
Definition parent_is_Entity (h : heap) (o : object) : bool :=
  match parent o with
  | Some p => instanceof h (VObj p) instanceof_Entity
  | None => false
  end.

(** Attach and detach calls made on containers; a call that raises leaves
    the heap as it was. *)
Inductive call :=
  | Attach (this : ref) (object : value)
  | Detach (this object : ref).

Definition run_call (g : game) (c : call) : game :=
  match c with
  | Attach this object =>
      match child_add g this object with Ok (g', _) => g' | Throw _ => g end
  | Detach this object =>
      match child_remove g this object with Ok g' => g' | Throw _ => g end
  end.

Definition run (g : game) (cs : list call) : game := foldl run_call g cs.

(** [a] is a proper ancestor of [e]: reachable from [e] by one or more
    [parent] links. *)
Inductive ancestor (h : heap) : ref → ref → Prop :=
  | ancestor_parent e oe p :
      h !! e = Some oe → parent oe = Some p → ancestor h p e
  | ancestor_step e oe p a :
      h !! e = Some oe → parent oe = Some p → ancestor h a p → ancestor h a e.

(** Every object held in a child list points back to the holder, no list
    holds an object twice, and a parent reference names a container that
    holds the object. *)
Definition single_parent (h : heap) : Prop :=
  (∀ c oc, h !! c = Some oc →
     NoDup (children oc) ∧
     ∀ e, e ∈ children oc → ∃ oe, h !! e = Some oe ∧ parent oe = Some c) ∧
  (∀ e oe p, h !! e = Some oe → parent oe = Some p →
     ∃ op, h !! p = Some op ∧ has_child_mixin (cls op) = true ∧ e ∈ children op).

End Container.

(** ** UpdateManager (the update scheduler) *)

Module UpdateManager.

Inductive event :=
  | willStart (initTime : float)
  | didStart (initTime startTime : float)
  | willStop
  | didStop (frameCount : Z)
  | willUpdate (frameCount : Z) (frameDelta startTime elapsedTime : float)
  | didUpdate (frameCount : Z) (frameDelta startTime elapsedTime : float).

(** The manager's fields, followed by its surroundings: [scheduled] counts
    the callbacks handed to [requestAnimationFrame] that the host has not
    run yet, [emitted] records the calls of [this._game.event.emit]. *)
Record t := mk {
  _running : bool;
  _frameRate : Z;
  _frameCount : Z;
  _frameDelta : float;
  _lastDelta : float;
  _startTime : float;
  _elapsedTime : float;
  _initTime : float;
  scheduled : nat;
  emitted : list event;
}.

(** [new UpdateManager(game)] at clock reading [now]. *)
Definition new (now : float) : t :=
  mk false 60 0 0 0 0 0 now 0 [].

Definition emit (e : event) (m : t) : t :=
  mk (_running m) (_frameRate m) (_frameCount m) (_frameDelta m) (_lastDelta m)
     (_startTime m) (_elapsedTime m) (_initTime m) (scheduled m) (emitted m ++ [e]).

(** [requestAnimationFrame(this._update)]. *)
Definition requestAnimationFrame (m : t) : t :=
  mk (_running m) (_frameRate m) (_frameCount m) (_frameDelta m) (_lastDelta m)
     (_startTime m) (_elapsedTime m) (_initTime m) (S (scheduled m)) (emitted m).

(** A property read [this.<name>] on the manager.  The class declares the
    fields [_running] ... [_initTime] and the accessors [frameCount] and
    [isRunning]; any other name reads as [undefined]. *)
Definition get (m : t) (name : string) : value :=
  if String.eqb name "_running" then VBool (_running m)
  else if String.eqb name "_frameRate" then VInt (_frameRate m)
  else if String.eqb name "_frameCount" then VInt (_frameCount m)
  else if String.eqb name "_frameDelta" then VNum (_frameDelta m)
  else if String.eqb name "_lastDelta" then VNum (_lastDelta m)
  else if String.eqb name "_startTime" then VNum (_startTime m)
  else if String.eqb name "_elapsedTime" then VNum (_elapsedTime m)
  else if String.eqb name "_initTime" then VNum (_initTime m)
  else if String.eqb name "frameCount" then VInt (_frameCount m)
  else if String.eqb name "isRunning" then VBool (_running m)
  else VUndefined.

(** [_start], lines 47-70; [now] is the reading of [performance.now()]. *)
Definition _start (now : float) (m : t) : t :=
  if truthy (get m "running") then m
  else
    let m1 := emit (willStart (_initTime m)) m in
    let m2 := mk true (_frameRate m1) (_frameCount m1) (_frameDelta m1) (_lastDelta m1)
                 now 0 (_initTime m1) (scheduled m1) (emitted m1) in
    let m3 := requestAnimationFrame m2 in
    emit (didStart (_initTime m3) (_startTime m3)) m3.

(** [_stop], lines 72-79. *)
Definition _stop (m : t) : t :=
  let m1 := emit willStop m in
  mk false (_frameRate m1) (_frameCount m1) (_frameDelta m1) (_lastDelta m1)
     (_startTime m1) (_elapsedTime m1) (_initTime m1) (scheduled m1) (emitted m1).

(** [_update(delta)], lines 81-111. *)
Definition _update (delta : float) (m : t) : t :=
  let m1 := emit (willUpdate (_frameCount m) (_frameDelta m)
                             (_startTime m) (_elapsedTime m)) m in
  let m2 := mk (_running m1) (_frameRate m1) (increment (_frameCount m1))
               (delta - _lastDelta m1)%float delta
               (_startTime m1) (_elapsedTime m1 + (delta - _startTime m1))%float
               (_initTime m1) (scheduled m1) (emitted m1) in
  let m3 := emit (didUpdate (_frameCount m2) (_frameDelta m2)
                            (_startTime m2) (_elapsedTime m2)) m2 in
  if _running m3 then requestAnimationFrame m3
  else emit (didStop (_frameCount m3)) m3.

(** The host runs one scheduled callback with the frame's timestamp; with
    nothing scheduled nothing runs. *)
Definition frame (delta : float) (m : t) : t :=
  match scheduled m with
  | O => m
  | S n =>
      _update delta
        (mk (_running m) (_frameRate m) (_frameCount m) (_frameDelta m) (_lastDelta m)
            (_startTime m) (_elapsedTime m) (_initTime m) n (emitted m))
  end.

Definition frames (deltas : list float) (m : t) : t :=
  foldl (λ m' d, frame d m') m deltas.

(** What an observer of the event bus sees of an event: its name and, for
    the events that carry one, the frame count. *)
Inductive seen :=
  | WillStart
  | DidStart
  | WillStop
  | DidStop (frameCount : Z)
  | WillUpdate (frameCount : Z)
  | DidUpdate (frameCount : Z).

Definition see (e : event) : seen :=
  match e with
  | willStart _ => WillStart
  | didStart _ _ => DidStart
  | willStop => WillStop
  | didStop n => DidStop n
  | willUpdate n _ _ _ => WillUpdate n
  | didUpdate n _ _ _ => DidUpdate n
  end.


End UpdateManager.

(** ** A concrete game

    A stage [1] shown by the viewport [2]; [3] is a plain object literal
    [{_id: 1}]; under the root container [4] at (10, 10) sits the container
    [5] at (5, 5) with alpha 0.5 and scale 2, which holds the entity [6];
    [7] is an empty container. *)

Module Examples.

Definition the_stage : object :=
  mkObject Stage (Some 0) None None [] (Point.mk 0 0) 1 1 (Derived.mk 0 0 0 0).

Definition the_viewport : object :=
  mkObject Viewport (Some 1) (Some 1%nat) None [] (Point.mk 0 0) 1 1 (Derived.mk 0 0 0 0).

Definition stand_in : object :=
  mkObject Plain (Some 1) None None [] (Point.mk 0 0) 1 1 (Derived.mk 0 0 0 0).

Definition R : object :=
  mkObject Container (Some 2) None None [5%nat] (Point.mk 10 10) 1 1 (Derived.mk 0 0 0 0).

Definition C : object :=
  mkObject Container (Some 3) None (Some 4%nat) [6%nat] (Point.mk 5 5) 0.5 2
           (Derived.mk 0 0 0 0).

Definition leaf : object :=
  mkObject Entity (Some 4) None (Some 5%nat) [] (Point.mk 1 1) 1 1 (Derived.mk 0 0 0 0).

Definition B : object :=
  mkObject Container (Some 5) None None [] (Point.mk 0 0) 1 1 (Derived.mk 0 0 0 0).

Definition objects : heap :=
  list_to_map [(1%nat, the_stage); (2%nat, the_viewport); (3%nat, stand_in);
               (4%nat, R); (5%nat, C); (6%nat, leaf); (7%nat, B)].

Definition the_game : game :=
  mkGame objects 6 [1; 2; 4; 5; 6; 7]%nat [2%nat] [1%nat]
         (Some 2%nat) (Some 1%nat) [] [].

(** Three objects just constructed and not yet registered. *)
Definition fresh : heap :=
  list_to_map [(1%nat, new_object Stage); (2%nat, new_object Viewport);
               (3%nat, new_object Entity)].

(** A game that has handed out the ids 0 ... 2^53 - 1 and destroyed every
    object since; the three objects of [fresh] are yet to be registered. *)
Definition worn_out : game :=
  mkGame fresh two_53 [] [] [] None None [] [].



End Examples.

(** ** Registry invariants and the [Base] constructor *)

Module Registry.

(** No object of the heap has been given an id yet. *)
Definition pristine (h : heap) : Prop :=
  ∀ y o, h !! y = Some o → _id o = None.

(** [y instanceof K], as a filter on stored references. *)
Definition is_a (h : heap) (K : class → bool) (y : ref) : bool :=
  instanceof h (VObj y) K.

(** What the manager keeps when only [add] and [_destroy] touch it and the
    counter has not reached 2^53: the store lists each object once; every stored object inherits from [Base]
    and has an id; every id in the heap is below [_index] and belongs to one
    object only; [_viewports] and [_stages] are what [get] returns for the
    filters [instanceof Viewport] and [instanceof Stage]. *)
Definition consistent (g : game) : Prop :=
  NoDup (_store g) ∧
  (∀ y, y ∈ _store g →
     ∃ o i, heap_of g !! y = Some o ∧ instanceof_Base (cls o) = true ∧ _id o = Some i) ∧
  (∀ y o i, heap_of g !! y = Some o → _id o = Some i → i < _index g) ∧
  (∀ y z oy oz i, heap_of g !! y = Some oy → heap_of g !! z = Some oz →
     _id oy = Some i → _id oz = Some i → y = z) ∧
  _viewports g = ObjectManager.get g (Some (is_a (heap_of g) instanceof_Viewport)) ∧
  _stages g = ObjectManager.get g (Some (is_a (heap_of g) instanceof_Stage)).

End Registry.

Module BaseObject.

(** What [new C(game)] yields, for a class [C] that extends [Base]. *)
Inductive outcome :=
  | Constructed (g : game) (this : ref)
  | Thrown (message : string).

(** The constructor of [Base] (Base.js, lines 74-82), run for an object of
    class [c].  [target] is [None] when the argument is not an instance of
    the Game class.  The object under construction is a new heap cell,
    which the constructor hands to [game.object.add]; the back-reference
    [_game] is not kept, there being one game, nor are the fields [active]
    and [data], which nothing here reads. *)
Definition constructor (target : option game) (c : class) : outcome :=
  match target with
  | None => Thrown "Whirl | Game objects must be instantiated into an instance of a Game."
  | Some g =>
      let this := fresh (dom (heap_of g)) in
      let g1 := set_heap (<[this := new_object c]> (heap_of g)) g in
      match ObjectManager.add g1 (VObj this) with
      | Ok (g2, _) => Constructed g2 this
      | Throw _ => Thrown "TypeError"
      end
  end.

End BaseObject.

(** ** The derived-transform pass over a visiting order *)

Module Pass.

(** The composition of lines 75-78 of Container.js: positions add, alpha
    and scale multiply. *)
Definition compose (d pd : Derived.t) : Derived.t :=
  Derived.mk (Derived.x d + Derived.x pd) (Derived.y d + Derived.y pd)
             (Derived.alpha d * Derived.alpha pd) (Derived.scale d * Derived.scale pd).

(** A visiting order is top-down when it names each object once, every
    object it names exists, is not its own parent, and is visited after its
    parent whenever the parent is visited at all. *)
Definition top_down (h : heap) (order : list ref) : Prop :=
  NoDup order ∧
  ∀ i n, order !! i = Some n →
    ∃ o, h !! n = Some o ∧
         ∀ p, parent o = Some p →
              p ≠ n ∧ ∀ j, order !! j = Some p → (j < i)%nat.

(** The snapshot [d] of an object [o] agrees with the heap [h]: it is
    composed from the object's own values and the snapshot its parent has
    in [h] when that parent is an instance of [Entity], and is the own
    values otherwise. *)
Definition agrees (h : heap) (o : object) (d : Derived.t) : Prop :=
  match parent o with
  | Some p =>
      match h !! p with
      | Some po =>
          if instanceof_Entity (cls po)
          then d = compose (Container.own o) (derived po)
          else d = Container.own o
      | None => d = Container.own o
      end
  | None => d = Container.own o
  end.

End Pass.

(** ** More of the update scheduler *)

Module Scheduler.
Import UpdateManager.

(** The calls made on a manager, by the game ([_start], [_stop]) and by the
    host (a frame). *)
Inductive call :=
  | Start (now : float)
  | Stop
  | Frame (delta : float).

Definition run_call (m : t) (c : call) : t :=
  match c with
  | Start now => _start now m
  | Stop => _stop m
  | Frame delta => frame delta m
  end.

Definition run (m : t) (cs : list call) : t := foldl run_call m cs.

(** The events of ticks only. *)
Definition of_tick (e : seen) : bool :=
  match e with
  | WillUpdate _ | DidUpdate _ | DidStop _ => true
  | _ => false
  end.

(** The events of consecutive ticks that begin at frame count [n]; each
    entry of [stops] tells whether that tick found the running flag down
    and ended with [didStop]. *)
Fixpoint ticks_with_stops (n : Z) (stops : list bool) : list seen :=
  match stops with
  | [] => []
  | b :: stops' =>
      WillUpdate n :: DidUpdate (n + 1) ::
      (if b then [DidStop (n + 1)] else []) ++ ticks_with_stops (n + 1) stops'
  end.

(** [_elapsedTime] after ticks at the timestamps [deltas], started at
    [start] from [elapsed]. *)
Definition elapsed_sum (start elapsed : float) (deltas : list float) : float :=
  foldl (λ e d, e + (d - start))%float elapsed deltas.

End Scheduler.

(** ** Circle (the shape next to the update scheduler, lines 5-22) *)

Module Circle.

(** [a || b]. *)
Definition or (a b : value) : value := if truthy a then a else b.

Record t := mk {
  _shape : string;
  x : value;
  y : value;
  r : value;
}.

(** The argument of [set]: an object whose properties [x], [y], [r] read as
    [undefined] when they are missing. *)
Record changes := mkChanges {
  changes_x : value;
  changes_y : value;
  changes_r : value;
}.

(** [new Circle(x, y, r)], lines 5-10; a missing argument is [undefined]. *)
Definition Circle (x y r : value) : t :=
  mk "circle" (or x (VNum 0)) (or y (VNum 0)) (or r (VNum 0)).

(** [this.set(changes)], lines 11-17. *)
Definition set (c : t) (ch : changes) : t :=
  mk (_shape c)
     (or (changes_x ch) (x c)) (or (changes_y ch) (y c)) (or (changes_r ch) (r c)).

(** A value a field can hold: truthy, or the constant [0] of the
    constructor. *)
Definition settled (v : value) : Prop := truthy v = true ∨ v = VNum 0.

End Circle.

(** ** More concrete data *)

Module MoreExamples.

(** Three nested containers: [1] at (10, 10); [2] at (5, 5) with alpha 0.5
    and scale 2 under [1]; [3] at (1, 1) with alpha 0.5 and scale 3 under
    [2]. *)
Definition chain : heap :=
  list_to_map
    [(1%nat, mkObject Container None None None [2%nat] (Point.mk 10 10) 1 1
               (Derived.mk 0 0 0 0));
     (2%nat, mkObject Container None None (Some 1%nat) [3%nat] (Point.mk 5 5) 0.5 2
               (Derived.mk 0 0 0 0));
     (3%nat, mkObject Container None None (Some 2%nat) [] (Point.mk 1 1) 0.5 3
               (Derived.mk 0 0 0 0))].

(** The three fresh objects of [Examples.fresh], registered in order. *)
Definition registered : game :=
  ObjectManager.run (new_game Examples.fresh)
    (ObjectManager.Add ∘ VObj <$> [1; 2; 3]%nat).

(** A manager started at 100, started again at 250, then stopped. *)
Definition started_twice : UpdateManager.t :=
  UpdateManager._stop
    (UpdateManager._start 250 (UpdateManager._start 100 (UpdateManager.new 0))).

End MoreExamples.

(** * Facts about the counters *)

Section CounterFacts.

(** Below 2^53 the increment is the integer successor. *)
Lemma increment_exact z : - two_53 ≤ z < two_53 → increment z = z + 1.
Proof.
  unfold increment, round53, two_53. intros Hz.
  destruct (Z.abs (z + 1) <? 9007199254740992) eqn:Ha; [done|].
  apply Z.ltb_ge in Ha.
  assert (z = 9007199254740991) as -> by lia.
  by vm_compute.
Qed.

(** At 2^53 the counter stops growing. *)
Lemma increment_stalls : increment two_53 = two_53.
Proof. by vm_compute. Qed.

(** [increment] next to the sum of the floats themselves: just below 2^53,
    at 2^53, and at 2^53 + 2, where the tie goes up to the even
    significand. *)
Lemma increment_as_binary64 :
  (increment 9007199254740991 = 9007199254740992 ∧
   (9007199254740991 + 1)%float = 9007199254740992%float) ∧
  (increment 9007199254740992 = 9007199254740992 ∧
   (9007199254740992 + 1)%float = 9007199254740992%float) ∧
  (increment 9007199254740994 = 9007199254740996 ∧
   (9007199254740994 + 1)%float = 9007199254740996%float).
Proof. repeat split; by vm_compute. Qed.

Lemma iter_increment_exact (k : nat) z :
  0 ≤ z → z + Z.of_nat k ≤ two_53 → Nat.iter k increment z = z + Z.of_nat k.
Proof.
  induction k as [|k IH]; intros H0 Hk; [cbn; lia|].
  rewrite Nat.iter_succ, IH by lia. rewrite increment_exact by (unfold two_53 in *; lia). lia.
Qed.

End CounterFacts.

(** * Facts about the ObjectManager *)

Section ObjectManagerFacts.
Import ObjectManager.

Lemma id_of_alter_set__id (h : heap) r v r' :
  id_of (alter (set__id v) r h) r' =
  if decide (r = r') then (h !! r') ≫= (λ _, v) else id_of h r'.
Proof.
  unfold id_of. rewrite lookup_alter. case_decide; [|done].
  subst. by destruct (h !! r').
Qed.

(** The accepting path of [add], written out. *)
Lemma add_accepted g r o :
  heap_of g !! r = Some o → instanceof_Base (cls o) = true → r ∉ _store g →
  add g (VObj r) =
  Ok (mkGame (alter (set__id (Some (_index g))) r (heap_of g))
             (increment (_index g)) (_store g ++ [r])
             (if instanceof_Viewport (cls o) then _viewports g ++ [r] else _viewports g)
             (if instanceof_Stage (cls o) then _stages g ++ [r] else _stages g)
             (setup_viewport g) (setup_stage g) (emitted g) (warnings g),
      VUndefined).
Proof.
  intros Hr Hb Hs. unfold add. cbn [instanceof]. rewrite Hr, Hb. cbn [negb].
  rewrite bool_decide_eq_false_2 by done.
  cbn. rewrite lookup_alter_eq, Hr. cbn.
  destruct (instanceof_Viewport (cls o)); cbn; rewrite lookup_alter_eq, Hr; cbn;
    by destruct (instanceof_Stage (cls o)).
Qed.

(** The two rejecting paths of [add]: a warning, nothing else. *)
Lemma add_rejected g v :
  accepts g v = false → ∃ m s, add g v = Ok (warn m s g).
Proof.
  unfold accepts, add. intros H.
  destruct (instanceof (heap_of g) v instanceof_Base) eqn:Hb; cbn [negb]; [|eauto].
  destruct v; cbn in H; try discriminate; eauto.
  apply negb_false_iff in H. rewrite H. eauto.
Qed.

Lemma accepts_inv g v :
  accepts g v = true →
  ∃ r o, v = VObj r ∧ heap_of g !! r = Some o ∧
         instanceof_Base (cls o) = true ∧ r ∉ _store g.
Proof.
  unfold accepts. intros [Hb Hs]%andb_true_iff.
  destruct v; try discriminate. cbn in Hb.
  destruct (heap_of g !! r) as [o|] eqn:Hr; [|discriminate].
  apply negb_true_iff, bool_decide_eq_false in Hs. by exists r, o.
Qed.

Lemma destroy_index g v g' r : _destroy g v = Ok (g', r) → _index g' = _index g.
Proof.
  unfold _destroy. intros H.
  destruct v; try (by inversion H); try (by destruct (_store g); inversion H).
  destruct (heap_of g !! r0) as [o|]; [|discriminate].
  inversion H; subst; clear H. cbn.
  destruct (instanceof_Viewport (cls o)), (instanceof_Stage (cls o)); cbn;
    repeat (case_bool_decide; cbn); done.
Qed.

(** What one call does to the counter and which id it hands out. *)
Lemma run_call_assigned g c :
  (assigned g c = [] ∧ _index (run_call g c) = _index g) ∨
  (∃ r, assigned g c = [(r, _index g)] ∧
        _index (run_call g c) = increment (_index g)).
Proof.
  destruct c as [v|v].
  - destruct (accepts g v) eqn:Ha.
    + right. destruct (accepts_inv _ _ Ha) as (r & o & -> & Hr & Hb & Hs).
      exists r. unfold assigned, run_call. rewrite Ha.
      rewrite (add_accepted _ _ _ Hr Hb Hs). cbn.
      rewrite id_of_alter_set__id, decide_True by done. by rewrite Hr.
    + left. unfold run_call.
      destruct (add_rejected _ _ Ha) as (m & s & ->).
      split; [|done]. destruct v; cbn; try done. by rewrite Ha.
  - left. split; [done|]. unfold run_call.
    destruct (_destroy g v) as [[g' r]|] eqn:Hd; [|done].
    by apply destroy_index in Hd.
Qed.

(** While the counter stays within 2^53, every id handed out lies between
    the counter before and the counter after. *)
Lemma assigned_ids_bounds g cs :
  0 ≤ _index g → _index g + Z.of_nat (length cs) ≤ two_53 →
  Forall (λ i, _index g ≤ i < _index (run g cs)) (assigned_ids g cs).*2 ∧
  _index g ≤ _index (run g cs) ≤ _index g + Z.of_nat (length cs).
Proof.
  revert g. induction cs as [|c cs IH]; intros g H0 Hb; cbn [assigned_ids run foldl].
  - split; [constructor|cbn; lia].
  - cbn [length] in Hb. fold (run (run_call g c) cs).
    rewrite fmap_app, Forall_app.
    destruct (run_call_assigned g c) as [[-> Hi]|(r & -> & Hi)].
    + destruct (IH (run_call g c)) as [IH1 IH2]; [lia..|].
      rewrite Hi in *. repeat split; [by apply Forall_nil|done|cbn [length]; lia..].
    + rewrite increment_exact in Hi by (unfold two_53 in *; lia).
      destruct (IH (run_call g c)) as [IH1 IH2]; [lia..|].
      repeat split; [|eapply Forall_impl; [exact IH1|]|..]; cbn [length fmap list_fmap snd].
      * repeat constructor; cbn; lia.
      * cbn. intros; lia.
      * lia.
      * lia.
Qed.

Lemma assigned_ids_sorted g cs :
  0 ≤ _index g → _index g + Z.of_nat (length cs) ≤ two_53 →
  StronglySorted Z.lt (assigned_ids g cs).*2.
Proof.
  revert g. induction cs as [|c cs IH]; intros g H0 Hb; cbn [assigned_ids];
    [constructor|].
  cbn [length] in Hb. rewrite fmap_app.
  destruct (run_call_assigned g c) as [[-> Hi]|(r & -> & Hi)]; cbn.
  { apply IH; lia. }
  rewrite increment_exact in Hi by (unfold two_53 in *; lia).
  constructor; [apply IH; lia|].
  eapply Forall_impl; [apply (assigned_ids_bounds (run_call g c) cs); lia|].
  cbn. intros; lia.
Qed.


Lemma StronglySorted_lt_NoDup (l : list Z) : StronglySorted Z.lt l → NoDup l.
Proof.
  induction 1 as [|i l _ IH Hi]; constructor; [|done].
  intros Hin. rewrite Forall_forall in Hi. specialize (Hi _ Hin). lia.
Qed.

(** Registering distinct objects that pass both guards: every call assigns,
    the k-th object receives the counter incremented k times, and keeps
    it. *)
Lemma adds_distinct g xs :
  NoDup xs → (∀ x, x ∈ xs → accepts g (VObj x) = true) →
  let g' := run g (Add ∘ VObj <$> xs) in
  assigned_ids g (Add ∘ VObj <$> xs) =
    imap (λ k x, (x, Nat.iter k increment (_index g))) xs ∧
  (∀ k x, xs !! k = Some x →
     id_of (heap_of g') x = Some (Nat.iter k increment (_index g))) ∧
  _store g' = _store g ++ xs ∧
  (∀ y, y ∉ xs → heap_of g' !! y = heap_of g !! y).
Proof.
  intros Hnd. revert g. induction Hnd as [|x xs Hx Hnd IH]; intros g Hacc; cbn zeta.
  { cbn. rewrite app_nil_r. repeat split; try done. }
  assert (Hax : accepts g (VObj x) = true) by (apply Hacc; left).
  destruct (accepts_inv _ _ Hax) as (r & o & [= <-] & Hr & Hb & Hs).
  cbn [fmap list_fmap compose assigned_ids run foldl].
  set (g1 := run_call g (Add (VObj x))).
  assert (Hg1 : g1 =
    mkGame (alter (set__id (Some (_index g))) x (heap_of g))
           (increment (_index g)) (_store g ++ [x])
           (if instanceof_Viewport (cls o) then _viewports g ++ [x] else _viewports g)
           (if instanceof_Stage (cls o) then _stages g ++ [x] else _stages g)
           (setup_viewport g) (setup_stage g) (emitted g) (warnings g)).
  { unfold g1, run_call. by rewrite (add_accepted _ _ _ Hr Hb Hs). }
  destruct (IH g1) as (IH1 & IH2 & IH3 & IH4).
  { intros x' Hx'. specialize (Hacc x' (list_elem_of_further _ _ _ Hx')).
    destruct (accepts_inv _ _ Hacc) as (r' & o' & [= <-] & Hr' & Hb' & Hs').
    assert (x ≠ x') by (intros ->; done).
    unfold accepts. rewrite Hg1. cbn.
    rewrite lookup_alter_ne, Hr', Hb' by done. cbn.
    rewrite bool_decide_eq_false_2; [done|].
    rewrite elem_of_app, list_elem_of_singleton. intros [?|?]; [done|congruence]. }
  fold (run g1 (Add ∘ VObj <$> xs)).
  assert (Hi : _index g1 = increment (_index g)) by (by rewrite Hg1).
  assert (Hid : id_of (heap_of g1) x = Some (_index g)).
  { rewrite Hg1. cbn. rewrite id_of_alter_set__id, decide_True by done. by rewrite Hr. }
  repeat split.
  - unfold assigned. rewrite Hax. fold g1. rewrite Hid. cbn [app imap]. f_equal.
    rewrite IH1. apply imap_ext. intros k y _. cbn [compose].
    by rewrite Hi, <- Nat.iter_succ_r.
  - intros [|k] y Hk; cbn in Hk.
    + injection Hk as <-. unfold id_of. rewrite IH4 by done.
      fold (id_of (heap_of g1) x). by rewrite Hid.
    + rewrite (IH2 _ _ Hk). by rewrite Hi, <- Nat.iter_succ_r.
  - rewrite IH3, Hg1. cbn. by rewrite <- app_assoc.
  - intros y Hy. rewrite not_elem_of_cons in Hy. destruct Hy as [Hy1 Hy2].
    rewrite IH4, Hg1 by done. cbn. by rewrite lookup_alter_ne.
Qed.

(** C3, within the range of the counter.  On a manager whose counter is
    not negative and stays within 2^53 over the calls made (a call raises it
    by one at most), the ids assigned over any sequence of [add] and
    [_destroy] calls are strictly increasing in call order, hence pairwise
    distinct, each is at least the counter the sequence started from and
    below the counter it ends with (so no later call can hand it out
    again); and a sequence of [add] calls on distinct objects that inherit
    from [Base] and are not yet stored assigns [_index], [_index + 1], ...
    to them in call order, each object keeping its id. *)
Theorem add_ids_unique_increasing (g : game) (cs : list call) (xs : list ref) :
  0 ≤ _index g →
  _index g + Z.of_nat (length cs) ≤ two_53 →
  _index g + Z.of_nat (length xs) ≤ two_53 →
  (StronglySorted Z.lt (assigned_ids g cs).*2 ∧
   NoDup (assigned_ids g cs).*2 ∧
   Forall (λ i, _index g ≤ i < _index (run g cs)) (assigned_ids g cs).*2) ∧
  (NoDup xs → (∀ x, x ∈ xs → accepts g (VObj x) = true) →
   assigned_ids g (Add ∘ VObj <$> xs) = imap (λ k x, (x, _index g + Z.of_nat k)) xs ∧
   ∀ k x, xs !! k = Some x →
     id_of (heap_of (run g (Add ∘ VObj <$> xs))) x = Some (_index g + Z.of_nat k)).
Proof.
  intros H0 Hcs Hxs. split.
  - pose proof (assigned_ids_sorted g cs H0 Hcs) as Hs.
    split; [done|]. split; [by apply StronglySorted_lt_NoDup|].
    by apply assigned_ids_bounds.
  - intros Hnd Hacc. destruct (adds_distinct g xs Hnd Hacc) as (H1 & H2 & _).
    split.
    + rewrite H1. apply imap_ext. intros k x Hk. cbn. f_equal.
      apply lookup_lt_Some in Hk. apply iter_increment_exact; lia.
    + intros k x Hk. rewrite (H2 _ _ Hk). f_equal.
      apply lookup_lt_Some in Hk. apply iter_increment_exact; lia.
Qed.

(** *** [_destroy] *)

Lemma unbind_lookup x (h : heap) v k :
  unbind x h v !! k =
  (λ o, if bool_decide (k = v ∧ stage o = Some x) then setStage None o else o) <$> h !! k.
Proof.
  unfold unbind. destruct (h !! v) as [ov|] eqn:Hv.
  - case_bool_decide as Hs.
    + rewrite lookup_alter. case_decide as Hk.
      * subst k. rewrite Hv. cbn. by rewrite bool_decide_eq_true_2.
      * destruct (h !! k); cbn; [|done].
        rewrite bool_decide_eq_false_2; [done|]. intros [? _]; congruence.
    + destruct (h !! k) as [o|] eqn:Hk; cbn; [|done].
      rewrite bool_decide_eq_false_2; [done|]. intros [-> ?]; congruence.
  - destruct (h !! k) as [o|] eqn:Hk; cbn; [|done].
    rewrite bool_decide_eq_false_2; [done|]. intros [-> ?]; congruence.
Qed.

Lemma unbind_all_lookup x l (h : heap) k :
  unbind_all x l h !! k =
  (λ o, if bool_decide (k ∈ l ∧ stage o = Some x) then setStage None o else o) <$> h !! k.
Proof.
  revert h. induction l as [|v l IH]; intros h; cbn.
  - destruct (h !! k); cbn; [|done].
    rewrite bool_decide_eq_false_2; [done|]. intros [?%elem_of_nil _]; done.
  - fold (unbind_all x l (unbind x h v)). rewrite IH, unbind_lookup.
    destruct (h !! k) as [o|]; cbn; [|done]. f_equal.
    destruct (decide (stage o = Some x)) as [Hs|Hs].
    + destruct (decide (k = v)) as [->|Hk].
      * rewrite (bool_decide_eq_true_2 (v = v ∧ _)) by done.
        rewrite bool_decide_eq_false_2 by (cbn; intros [_ ?]; done).
        rewrite bool_decide_eq_true_2; [done|]. split; [left|done].
      * rewrite (bool_decide_eq_false_2 (k = v ∧ _)) by (intros [? _]; done).
        destruct (decide (k ∈ l)) as [Hl|Hl].
        -- rewrite !bool_decide_eq_true_2; [done| |]; split; try done. by right.
        -- rewrite !bool_decide_eq_false_2; [done| |]; intros [Hin _]; [|done].
           apply elem_of_cons in Hin as [?|?]; done.
    + rewrite (bool_decide_eq_false_2 (k = v ∧ _)) by (intros [_ ?]; done).
      rewrite !bool_decide_eq_false_2; [done| |]; intros [_ ?]; done.
Qed.

Lemma unbind_all_id_of x l (h : heap) k : id_of (unbind_all x l h) k = id_of h k.
Proof.
  unfold id_of. rewrite unbind_all_lookup.
  destruct (h !! k) as [o|]; cbn; [|done]. by case_bool_decide.
Qed.


(** [_destroy] on an object, written out field by field. *)
Lemma destroy_object g x o :
  heap_of g !! x = Some o →
  let P := differs (heap_of g) (_id o) in
  let isV := instanceof_Viewport (cls o) in
  let isS := instanceof_Stage (cls o) in
  let V' := if isV then filter P (_viewports g) else _viewports g in
  _destroy g (VObj x) =
  Ok (mkGame (if isS then unbind_all x V' (heap_of g) else heap_of g)
             (_index g)
             (filter P (_store g))
             V'
             (if isS then filter P (_stages g) else _stages g)
             (if isV && bool_decide (setup_viewport g = Some x)
              then None else setup_viewport g)
             (if isS && bool_decide (setup_stage g = Some x)
              then None else setup_stage g)
             (emitted g ++ [didDestroy (VObj x)])
             (warnings g),
      VObj x).
Proof.
  intros Hx. unfold _destroy. rewrite Hx. destruct g; cbn.
  destruct (instanceof_Viewport (cls o)), (instanceof_Stage (cls o)); cbn;
    repeat (case_bool_decide; cbn); done.
Qed.

Lemma not_differs_self (h : heap) x o : h !! x = Some o → ¬ differs h (_id o) x.
Proof. intros Hx Hd. apply Hd. unfold id_of. by rewrite Hx. Qed.

(** C4, as the code has it.  [_destroy(x)] on an object [x] returns [x];
    afterwards [x] is not in the store, so [get] with or without a filter
    does not list it; when [x] is a Viewport it is not in [_viewports] and
    [setup.viewport] no longer refers to it; when [x] is a Stage it is not
    in [_stages], every viewport of [_viewports] that was bound to it has
    its [stage] cleared, no viewport of [_viewports] is bound to it, and
    [setup.stage] no longer refers to it; one [didDestroy] event carrying
    [x] is emitted.  An object that is not in [_viewports], such as a
    viewport destroyed earlier, is left as it is. *)
Theorem destroy_removes_and_unbinds (g : game) (x : ref) (o : object) :
  heap_of g !! x = Some o →
  ∃ g', _destroy g (VObj x) = Ok (g', VObj x) ∧
    (x ∉ _store g') ∧
    (∀ f, x ∉ get g' f) ∧
    (instanceof_Viewport (cls o) = true →
       (x ∉ _viewports g') ∧
       setup_viewport g' =
         if bool_decide (setup_viewport g = Some x) then None else setup_viewport g) ∧
    (instanceof_Stage (cls o) = true →
       (x ∉ _stages g') ∧
       (∀ v ov, v ∈ _viewports g → heap_of g !! v = Some ov → stage ov = Some x →
          heap_of g' !! v = Some (setStage None ov)) ∧
       (∀ v ov, v ∈ _viewports g' → heap_of g' !! v = Some ov → stage ov ≠ Some x) ∧
       setup_stage g' =
         if bool_decide (setup_stage g = Some x) then None else setup_stage g) ∧
    emitted g' = emitted g ++ [didDestroy (VObj x)] ∧
    (∀ v, v ∉ _viewports g → heap_of g' !! v = heap_of g !! v).
Proof.
  intros Hx. eexists. split; [apply (destroy_object _ _ _ Hx)|]. cbn.
  assert (Hs : ∀ l : list ref, x ∉ filter (differs (heap_of g) (_id o)) l).
  { intros l [Hd _]%list_elem_of_filter. by apply (not_differs_self _ _ _ Hx). }
  split; [apply Hs|]. split.
  { intros [f|]; cbn; [|apply Hs].
    rewrite list_elem_of_In, filter_In, <- list_elem_of_In. intros [Hin _].
    by apply (Hs (_store g)). }
  split; [|split; [|split; [done|]]]; cycle 2.
  { intros v Hv. destruct (instanceof_Stage (cls o)); [|done].
    rewrite unbind_all_lookup. destruct (heap_of g !! v) as [ov|]; cbn; [|done].
    rewrite bool_decide_eq_false_2; [done|]. intros [Hin _]. apply Hv.
    destruct (instanceof_Viewport (cls o)); [|done].
    by apply list_elem_of_filter in Hin as [_ ?]. }
  - intros ->. split; [apply Hs|]. done.
  - intros HS. rewrite HS. split; [apply Hs|].
    assert (HV : instanceof_Viewport (cls o) = false) by (by destruct (cls o)).
    rewrite HV. cbn. split; [|split].
    + intros v ov Hv Hov Hst. rewrite unbind_all_lookup, Hov. cbn.
      by rewrite bool_decide_eq_true_2.
    + intros v ov Hv. rewrite unbind_all_lookup.
      destruct (heap_of g !! v) as [ov'|]; cbn; [|done].
      intros [= <-]. case_bool_decide as Hc; cbn; [done|].
      intros Hst. apply Hc. done.
    + done.
Qed.



Lemma ids_defined_new h : ids_defined (new_game h).
Proof. intros y. cbn. by intros ?%elem_of_nil. Qed.

Lemma ids_defined_run_call g c : ids_defined g → ids_defined (run_call g c).
Proof.
  intros Hg. destruct c as [v|v]; unfold run_call.
  - destruct (accepts g v) eqn:Ha.
    + destruct (accepts_inv _ _ Ha) as (r & o & -> & Hr & Hb & Hs).
      rewrite (add_accepted _ _ _ Hr Hb Hs). intros y. cbn.
      rewrite id_of_alter_set__id. intros Hy. case_decide as Hry.
      { subst. by rewrite Hr. }
      apply Hg. rewrite !elem_of_app in Hy. rewrite !elem_of_app.
      destruct (instanceof_Viewport (cls o)), (instanceof_Stage (cls o));
        rewrite ?elem_of_app, ?list_elem_of_singleton in Hy; intuition congruence.
    + by destruct (add_rejected _ _ Ha) as (m & s & ->).
  - destruct (_destroy g v) as [[g' r]|] eqn:Hd; [|done].
    destruct v as [| |b|n|z|x].
    1-2: cbn in Hd; destruct (_store g) eqn:Hs; [|discriminate];
         injection Hd as <- _; intros y; cbn; intros Hy; apply Hg;
         by rewrite Hs.
    1-3: cbn in Hd; injection Hd as <- _; intros y; cbn;
         rewrite !elem_of_app, list_elem_of_filter; intros Hy; apply Hg;
         rewrite !elem_of_app; tauto.
    destruct (heap_of g !! x) as [o|] eqn:Hx; [|by cbn in Hd; rewrite Hx in Hd].
    rewrite (destroy_object _ _ _ Hx) in Hd. cbn zeta in Hd. injection Hd as <- _.
    intros y. cbn. rewrite !elem_of_app. intros Hy.
    assert (Hin : y ∈ _store g ++ _viewports g ++ _stages g).
    { rewrite !elem_of_app.
      destruct (instanceof_Viewport (cls o)), (instanceof_Stage (cls o));
        rewrite ?list_elem_of_filter in Hy; tauto. }
    specialize (Hg _ Hin).
    destruct (instanceof_Stage (cls o)); [|done].
    by rewrite unbind_all_id_of.
Qed.

(** Every manager state reached from a new game by [add] and [_destroy]
    calls stores only objects that carry an id. *)
Lemma ids_defined_run h cs : ids_defined (run (new_game h) cs).
Proof.
  unfold run. generalize (ids_defined_new h). generalize (new_game h).
  induction cs as [|c cs IH]; intros g Hg; cbn; [done|].
  apply IH. by apply ids_defined_run_call.
Qed.

Lemma filter_differs_None g (l : list ref) :
  (∀ y, y ∈ l → is_Some (id_of (heap_of g) y)) →
  filter (differs (heap_of g) None) l = l.
Proof.
  intros Hl. induction l as [|y l IH]; [done|].
  rewrite filter_cons, decide_True.
  - f_equal. apply IH. intros ??. apply Hl. by right.
  - unfold differs. destruct (Hl y) as [i Hi]; [left|]. by rewrite Hi.
Qed.

(** C10, as the code has it.  [_destroy(x)] keeps in the store exactly the
    objects whose [_id] differs from [x._id], in their order, so any object
    carrying the [_id] of a stored object removes that object from the
    store; the Viewport subset is filtered the same way only when [x] is a
    Viewport, and the Stage subset only when [x] is a Stage.  When [x] has no
    id and every stored object has one, the three lists are unchanged; in
    every case one [didDestroy] event carrying [x] is emitted and [x] is
    returned. *)
Theorem destroy_filters_by_id (g : game) (x : ref) (o : object) :
  heap_of g !! x = Some o →
  ∃ g', _destroy g (VObj x) = Ok (g', VObj x) ∧
    _store g' = filter (λ y, _id o ≠ id_of (heap_of g) y) (_store g) ∧
    (∀ y, y ∈ _store g → id_of (heap_of g) y = _id o → y ∉ _store g') ∧
    _viewports g' =
      (if instanceof_Viewport (cls o)
       then filter (λ y, _id o ≠ id_of (heap_of g) y) (_viewports g)
       else _viewports g) ∧
    _stages g' =
      (if instanceof_Stage (cls o)
       then filter (λ y, _id o ≠ id_of (heap_of g) y) (_stages g)
       else _stages g) ∧
    emitted g' = emitted g ++ [didDestroy (VObj x)] ∧
    (ids_defined g → _id o = None →
       _store g' = _store g ∧ _viewports g' = _viewports g ∧ _stages g' = _stages g).
Proof.
  intros Hx. eexists. split; [apply (destroy_object _ _ _ Hx)|]. cbn.
  split; [done|]. split.
  { intros y _ Hy [Hd _]%list_elem_of_filter. by apply Hd. }
  split; [done|]. split; [done|]. split; [done|].
  intros Hg Hid. rewrite Hid.
  assert (∀ l : list ref, l ⊆ _store g ++ _viewports g ++ _stages g →
            filter (differs (heap_of g) None) l = l) as Hf.
  { intros l Hl. apply filter_differs_None. intros y Hy. apply Hg, Hl, Hy. }
  rewrite !Hf; [by destruct (instanceof_Viewport _), (instanceof_Stage _)|..];
    intros y Hy; rewrite !elem_of_app; auto.
Qed.

End ObjectManagerFacts.

(** * Facts about the container tree *)

Section ContainerFacts.
Import Container.

Lemma lookup_alter_fmap (f : object → object) (h : heap) i j :
  alter f i h !! j = (if decide (i = j) then f else id) <$> h !! j.
Proof.
  rewrite lookup_alter. case_decide; [subst|]; by destruct (h !! j).
Qed.

Lemma detached_lookup h p e op k :
  h !! p = Some op →
  detached h p e op !! k =
  (λ o, mkObject (cls o) (_id o) (stage o)
          (if decide (e = k) then None else parent o)
          (if decide (p = k) then filter (λ c, c ≠ e) (children o) else children o)
          (position o) (alpha o) (scale o) (derived o)) <$> h !! k.
Proof.
  intros Hp. unfold detached. rewrite !lookup_alter_fmap.
  destruct (h !! k) as [o|] eqn:Hk; cbn; [|done]. f_equal.
  repeat case_decide; subst; cbn; try (by destruct o).
  all: rewrite Hp in Hk; injection Hk as ->; done.
Qed.

Lemma attached_lookup h this e k :
  attached h this e !! k =
  (λ o, mkObject (cls o) (_id o) (stage o)
          (if decide (e = k) then Some this else parent o)
          (if decide (this = k) then children o ++ [e] else children o)
          (position o) (alpha o) (scale o) (derived o)) <$> h !! k.
Proof.
  unfold attached. rewrite !lookup_alter_fmap.
  destruct (h !! k) as [o|] eqn:Hk; cbn; [|done]. f_equal.
  repeat case_decide; subst; cbn; by destruct o.
Qed.

Lemma child_remove_found g p e op :
  heap_of g !! p = Some op → has_child_mixin (cls op) = true → e ∈ children op →
  child_remove g p e = Ok (set_heap (detached (heap_of g) p e op) g).
Proof.
  intros Hp Hm He. unfold child_remove. rewrite Hp, Hm.
  by rewrite bool_decide_eq_true_2.
Qed.

Lemma child_remove_absent g p e op :
  heap_of g !! p = Some op → has_child_mixin (cls op) = true → e ∉ children op →
  child_remove g p e = Ok g.
Proof.
  intros Hp Hm He. unfold child_remove. rewrite Hp, Hm.
  by rewrite bool_decide_eq_false_2.
Qed.

Lemma single_parent_detached h p e op :
  single_parent h → h !! p = Some op → e ∈ children op →
  single_parent (detached h p e op).
Proof.
  intros [I1 I2] Hp He. split.
  - intros c oc'. rewrite (detached_lookup _ _ _ _ _ Hp).
    destruct (h !! c) as [oc|] eqn:Hc; [|done]. cbn. intros [= <-]. cbn.
    destruct (I1 _ _ Hc) as [Hnd Hmem].
    assert (Hback : ∀ e', e' ∈ children oc → e' ≠ e →
              ∃ oe, detached h p e op !! e' = Some oe ∧ parent oe = Some c).
    { intros e' He' Hne. destruct (Hmem _ He') as (oe' & Hoe' & Hpar).
      rewrite (detached_lookup _ _ _ _ _ Hp), Hoe'. cbn. eexists. split; [done|].
      cbn. by rewrite decide_False. }
    case_decide as Hpc.
    + split; [by apply NoDup_filter|].
      intros e' [Hne He']%list_elem_of_filter. by apply Hback.
    + split; [done|]. intros e' He'. apply Hback; [done|]. intros ->.
      destruct (Hmem _ He') as (oe1 & Hoe1 & Hpar1).
      destruct (I1 _ _ Hp) as [_ Hmemp].
      destruct (Hmemp _ He) as (oe2 & Hoe2 & Hpar2). congruence.
  - intros e' oe'' q. rewrite (detached_lookup _ _ _ _ _ Hp).
    destruct (h !! e') as [oe'|] eqn:He'; [|done]. cbn. intros [= <-]. cbn.
    case_decide as Hee; [done|]. intros Hpar.
    destruct (I2 _ _ _ He' Hpar) as (oq & Hq & Hm & Hin).
    rewrite (detached_lookup _ _ _ _ _ Hp), Hq. cbn. eexists. split; [done|]. cbn.
    split; [done|]. case_decide; [|done].
    apply list_elem_of_filter. split; [congruence|done].
Qed.

Lemma single_parent_attached h this e oe ot :
  single_parent h → h !! e = Some oe → parent oe = None →
  h !! this = Some ot → has_child_mixin (cls ot) = true →
  single_parent (attached h this e).
Proof.
  intros [I1 I2] He Hnone Ht Hm.
  assert (Hfree : ∀ c oc, h !! c = Some oc → e ∉ children oc).
  { intros c oc Hc Hin. destruct (I1 _ _ Hc) as [_ Hmem].
    destruct (Hmem _ Hin) as (oe' & Hoe' & Hpar). congruence. }
  split.
  - intros c oc'. rewrite attached_lookup.
    destruct (h !! c) as [oc|] eqn:Hc; [|done]. cbn. intros [= <-]. cbn.
    destruct (I1 _ _ Hc) as [Hnd Hmem]. specialize (Hfree _ _ Hc).
    assert (Hback : ∀ e', e' ∈ children oc →
              ∃ oe', attached h this e !! e' = Some oe' ∧ parent oe' = Some c).
    { intros e' He'. destruct (Hmem _ He') as (oe' & Hoe' & Hpar).
      rewrite attached_lookup, Hoe'. cbn. eexists. split; [done|]. cbn.
      rewrite decide_False; [done|]. intros <-. done. }
    case_decide as Htc; [|by split].
    split.
    + apply NoDup_app. split; [done|]. split; [|apply NoDup_singleton].
      intros x Hx ->%list_elem_of_singleton. done.
    + intros e' [He'| ->%list_elem_of_singleton]%elem_of_app; [by apply Hback|].
      rewrite attached_lookup, He. cbn. eexists. split; [done|]. cbn.
      rewrite decide_True by done. congruence.
  - intros e' oe'' q. rewrite attached_lookup.
    destruct (h !! e') as [oe'|] eqn:He'; [|done]. cbn. intros [= <-]. cbn.
    case_decide as Hee.
    + subst e'. intros [= <-]. rewrite attached_lookup, Ht. cbn. eexists. split; [done|]. cbn.
      split; [done|]. rewrite decide_True by done.
      apply elem_of_app. right. by left.
    + intros Hpar. destruct (I2 _ _ _ He' Hpar) as (oq & Hq & Hmq & Hin).
      rewrite attached_lookup, Hq. cbn. eexists. split; [done|]. cbn.
      split; [done|]. case_decide; [|done]. apply elem_of_app. by left.
Qed.

(** An attach of an entity: the hook detaches it from its parent, if it has
    one, then the two writes follow. *)
Lemma child_add_entity g this e ot oe :
  heap_of g !! this = Some ot → has_child_mixin (cls ot) = true →
  heap_of g !! e = Some oe → instanceof_Entity (cls oe) = true →
  child_add g this (VObj e) =
  match parent oe with
  | Some p =>
      g1 ← child_remove g p e; Ok (set_heap (attached (heap_of g1) this e) g1, true)
  | None => Ok (set_heap (attached (heap_of g) this e) g, true)
  end.
Proof.
  intros Ht Hm He Hent. unfold child_add, onAdd. rewrite Ht, Hm, He, Hent.
  destruct (parent oe) as [p|]; cbn; [|done].
  by destruct (child_remove g p e).
Qed.

(** An attach of anything that is not an entity: the hook warns and
    answers [false]; nothing else happens. *)
Lemma child_add_rejected g this v ot :
  heap_of g !! this = Some ot → has_child_mixin (cls ot) = true →
  instanceof (heap_of g) v instanceof_Entity = false →
  ∃ m s, onAdd g this v = Ok ((warn m s g).1, VBool false) ∧
         child_add g this v = Ok ((warn m s g).1, false).
Proof.
  intros Ht Hm Hv. do 2 eexists. unfold child_add. rewrite Ht, Hm.
  assert (onAdd g this v =
          Ok ((warn "Objects added to a Container must inherit from the Entity class. Rejecting attempt to add object as child."
                    "Whirl.Container" g).1, VBool false)) as ->; [|done].
  unfold onAdd. destruct v as [| | | | |e]; try done. cbn in Hv.
  destruct (heap_of g !! e) as [oe|]; [|done]. by rewrite Hv.
Qed.

Lemma single_parent_child_remove g p e g' :
  single_parent (heap_of g) → child_remove g p e = Ok g' →
  single_parent (heap_of g').
Proof.
  intros Hsp. unfold child_remove.
  destruct (heap_of g !! p) as [op|] eqn:Hp; [|done].
  destruct (has_child_mixin (cls op)); [|done].
  case_bool_decide; intros [= <-]; [|done].
  by apply single_parent_detached.
Qed.

Lemma single_parent_child_add g this v g' b :
  single_parent (heap_of g) → child_add g this v = Ok (g', b) →
  single_parent (heap_of g').
Proof.
  intros Hsp Hadd.
  destruct (heap_of g !! this) as [ot|] eqn:Ht;
    [|by unfold child_add in Hadd; rewrite Ht in Hadd].
  destruct (has_child_mixin (cls ot)) eqn:Hm;
    [|by unfold child_add in Hadd; rewrite Ht, Hm in Hadd].
  destruct (instanceof (heap_of g) v instanceof_Entity) eqn:Hv.
  - destruct v as [| | | | |e]; try discriminate. cbn in Hv.
    destruct (heap_of g !! e) as [oe|] eqn:He; [|done].
    rewrite (child_add_entity _ _ _ _ _ Ht Hm He Hv) in Hadd.
    destruct (parent oe) as [p|] eqn:Hpar.
    + destruct Hsp as [I1 I2].
      destruct (I2 _ _ _ He Hpar) as (op & Hp & Hmp & Hin).
      rewrite (child_remove_found _ _ _ _ Hp Hmp Hin) in Hadd.
      cbn in Hadd. injection Hadd as <- _. cbn.
      pose proof (single_parent_detached _ _ _ _ (conj I1 I2) Hp Hin) as Hd.
      pose proof (detached_lookup _ _ e _ e Hp) as Hle. rewrite He in Hle.
      pose proof (detached_lookup _ _ e _ this Hp) as Hlt. rewrite Ht in Hlt.
      eapply single_parent_attached; [done|exact Hle| |exact Hlt|done].
      cbn. by rewrite decide_True.
    + injection Hadd as <- _. cbn. by eapply single_parent_attached.
  - destruct (child_add_rejected _ _ _ _ Ht Hm Hv) as (m & s & _ & Hrej).
    rewrite Hrej in Hadd. by injection Hadd as <- _.
Qed.

Lemma single_parent_run_call g c :
  single_parent (heap_of g) → single_parent (heap_of (run_call g c)).
Proof.
  intros Hsp. destruct c as [this v|this e]; cbn.
  - destruct (child_add g this v) as [[g' b]|] eqn:Hadd; [|done].
    by eapply single_parent_child_add.
  - destruct (child_remove g this e) as [g'|] eqn:Hrem; [|done].
    by eapply single_parent_child_remove.
Qed.

(** No attach of an entity to a container is refused, whatever the
    ancestry of the two. *)
Lemma child_add_entity_accepted g this ot e oe :
  single_parent (heap_of g) →
  heap_of g !! this = Some ot → has_child_mixin (cls ot) = true →
  heap_of g !! e = Some oe → instanceof_Entity (cls oe) = true →
  ∃ g', child_add g this (VObj e) = Ok (g', true).
Proof.
  intros [_ I2] Ht Hm He Hent.
  rewrite (child_add_entity _ _ _ _ _ Ht Hm He Hent).
  destruct (parent oe) as [p|] eqn:Hpar; [|by eexists].
  destruct (I2 _ _ _ He Hpar) as (op & Hp & Hmp & Hin).
  rewrite (child_remove_found _ _ _ _ Hp Hmp Hin). cbn. by eexists.
Qed.

(** C9, as the code has it.  Starting from a heap in which every child
    list is duplicate-free and agrees with the [parent] references, every
    sequence of attach and detach calls leaves such a heap: an object is
    held by at most one container, at most once, and its [parent] names
    that container.  In the state reached, an attach of any entity to any
    container is accepted: ancestry is not looked at. *)
Theorem attach_detach_keep_single_parent (g : game) (cs : list call) :
  single_parent (heap_of g) →
  single_parent (heap_of (run g cs)) ∧
  (∀ e c1 o1 c2 o2,
     heap_of (run g cs) !! c1 = Some o1 → e ∈ children o1 →
     heap_of (run g cs) !! c2 = Some o2 → e ∈ children o2 → c1 = c2) ∧
  (∀ this ot e oe,
     heap_of (run g cs) !! this = Some ot → has_child_mixin (cls ot) = true →
     heap_of (run g cs) !! e = Some oe → instanceof_Entity (cls oe) = true →
     ∃ g', child_add (run g cs) this (VObj e) = Ok (g', true)).
Proof.
  intros Hsp.
  assert (Hrun : single_parent (heap_of (run g cs))).
  { unfold run. revert g Hsp. induction cs as [|c cs IH]; intros g Hsp; cbn; [done|].
    apply IH. by apply single_parent_run_call. }
  split; [done|]. split.
  - destruct Hrun as [I1 _].
    intros e c1 o1 c2 o2 H1 Hin1 H2 Hin2.
    destruct (I1 _ _ H1) as [_ M1]. destruct (I1 _ _ H2) as [_ M2].
    destruct (M1 _ Hin1) as (oe1 & He1 & P1). destruct (M2 _ Hin2) as (oe2 & He2 & P2).
    congruence.
  - intros this ot e oe. by apply child_add_entity_accepted.
Qed.

(** C2.  An entity [e] whose parent is the container [A] is attached to a
    different container [B] that does not hold it: the attach succeeds;
    afterwards the list of [A] does not contain [e], the list of [B] is its
    former list followed by [e], and [e.parent] is [B]. *)
Theorem reattach_moves_child (g : game) (A B e : ref) (oe oA oB : object) :
  heap_of g !! e = Some oe → instanceof_Entity (cls oe) = true →
  parent oe = Some A → A ≠ B →
  heap_of g !! A = Some oA → has_child_mixin (cls oA) = true →
  heap_of g !! B = Some oB → has_child_mixin (cls oB) = true →
  e ∉ children oB →
  ∃ g' oA' oB' oe',
    child_add g B (VObj e) = Ok (g', true) ∧
    heap_of g' !! A = Some oA' ∧ (e ∉ children oA') ∧
    heap_of g' !! B = Some oB' ∧ children oB' = children oB ++ [e] ∧
    heap_of g' !! e = Some oe' ∧ parent oe' = Some B.
Proof.
  intros He Hent Hpar HAB HA HmA HB HmB HeB.
  rewrite (child_add_entity _ _ _ _ _ HB HmB He Hent), Hpar.
  destruct (decide (e ∈ children oA)) as [Hin|Hin].
  - rewrite (child_remove_found _ _ _ _ HA HmA Hin). cbn.
    do 4 eexists. split; [done|]. cbn.
    rewrite !attached_lookup, !(detached_lookup _ _ _ _ _ HA), HA, HB, He. cbn.
    rewrite !(decide_True (P := A = A)), !(decide_True (P := B = B)),
            !(decide_True (P := e = e)), !(decide_False (P := B = A)),
            !(decide_False (P := A = B)) by done.
    repeat split; try done.
    intros [? _]%list_elem_of_filter. done.
  - rewrite (child_remove_absent _ _ _ _ HA HmA Hin). cbn.
    do 4 eexists. split; [done|]. cbn.
    rewrite !attached_lookup, HA, HB, He. cbn.
    rewrite !(decide_True (P := B = B)),
            !(decide_True (P := e = e)), !(decide_False (P := B = A)) by done.
    repeat split; done.
Qed.

(** C7.  The three validation rejections.  [add] on a value that is not an
    instance of [Base], [add] on an object already in the store, and an
    attach of a value that is not an [Entity] to a container: each returns
    normally, with a falsy value ([undefined] from [add], [false] from the
    hook and the attach), logs one warning and changes nothing else; in
    particular the store keeps its length and the object its id. *)
Theorem validation_rejections_leave_state (g : game) :
  (∀ v, instanceof (heap_of g) v instanceof_Base = false →
     ∃ g' ret, ObjectManager.add g v = Ok (g', ret) ∧ truthy ret = false ∧
               only_warned g g') ∧
  (∀ r, r ∈ _store g →
     ∃ g' ret, ObjectManager.add g (VObj r) = Ok (g', ret) ∧ truthy ret = false ∧
               only_warned g g' ∧
               length (_store g') = length (_store g) ∧
               id_of (heap_of g') r = id_of (heap_of g) r) ∧
  (∀ this ot v,
     heap_of g !! this = Some ot → has_child_mixin (cls ot) = true →
     instanceof (heap_of g) v instanceof_Entity = false →
     ∃ g', onAdd g this v = Ok (g', VBool false) ∧
           child_add g this v = Ok (g', false) ∧
           only_warned g g').
Proof.
  assert (Hw : ∀ m s, only_warned g (warn m s g).1).
  { intros m s. unfold only_warned, warn. cbn. repeat split; eauto. }
  assert (Hrej : ∀ v, ObjectManager.accepts g v = false →
            ∃ g' ret, ObjectManager.add g v = Ok (g', ret) ∧ truthy ret = false ∧
                      only_warned g g').
  { intros v Ha. destruct (add_rejected _ _ Ha) as (m & s & ->).
    exists (warn m s g).1, (warn m s g).2. split; [done|]. split; [done|]. apply Hw. }
  split; [|split].
  - intros v Hv. apply Hrej. unfold ObjectManager.accepts. by rewrite Hv.
  - intros r Hr.
    destruct (Hrej (VObj r)) as (g' & ret & Hadd & Hret & Hg').
    { unfold ObjectManager.accepts. rewrite bool_decide_eq_true_2 by done.
      apply andb_false_r. }
    exists g', ret. do 3 (split; [done|]).
    destruct Hg' as (-> & _ & -> & _). done.
  - intros this ot v Ht Hm Hv.
    destruct (child_add_rejected _ _ _ _ Ht Hm Hv) as (m & s & Hhook & Hadd).
    exists (warn m s g).1. split; [done|]. split; [done|]. apply Hw.
Qed.

(** C1.  [calculateDerived] on an object [this]: only [this.derived]
    changes.  When the parent is not an instance of [Entity] (or there is
    none) the snapshot is the object's own position, alpha and scale.  When
    the parent [p] is another object and an instance of [Entity], the parent
    is left as it is and the snapshot is the own position plus the parent's
    derived position, the own alpha times the parent's derived alpha and the
    own scale times the parent's derived scale. *)
Theorem calculateDerived_composes (h : heap) (this : ref) (o : object) :
  h !! this = Some o →
  ∃ h' d,
    calculateDerived h this = Ok h' ∧
    h' = <[this := set_derived d o]> h ∧
    (parent_is_Entity h o = false → d = own o) ∧
    (∀ p po, parent o = Some p → p ≠ this → h !! p = Some po →
       instanceof_Entity (cls po) = true →
       h' !! p = Some po ∧
       Derived.x d = (Point.x (position o) + Derived.x (derived po))%float ∧
       Derived.y d = (Point.y (position o) + Derived.y (derived po))%float ∧
       Derived.alpha d = (alpha o * Derived.alpha (derived po))%float ∧
       Derived.scale d = (scale o * Derived.scale (derived po))%float).
Proof.
  intros Ho. unfold calculateDerived, parent_is_Entity. rewrite Ho. fold (own o).
  destruct (parent o) as [p|] eqn:Hp.
  - rewrite lookup_insert. case_decide as Hpt.
    + subst p. cbn. rewrite Ho.
      destruct (instanceof_Entity (cls o)) eqn:Hent.
      * eexists _, _. split; [done|]. rewrite insert_insert_eq.
        split; [done|]. split; [done|]. intros p po [= <-]. done.
      * eexists _, _. split; [done|]. split; [done|]. split; [done|].
        intros p po [= <-]. done.
    + cbn. destruct (h !! p) as [po|] eqn:Hpo.
      * destruct (instanceof_Entity (cls po)) eqn:Hent.
        -- eexists _, _. split; [done|]. rewrite insert_insert_eq.
           split; [done|]. split; [done|].
           intros p' po' [= <-] _ Hpo' _. rewrite lookup_insert_ne by done.
           rewrite Hpo in Hpo'. injection Hpo' as <-. done.
        -- eexists _, _. split; [done|]. split; [done|]. split; [done|].
           intros p' po' [= <-] _ Hpo' Hent'. congruence.
      * eexists _, _. split; [done|]. split; [done|]. split; [done|].
        intros p' po' [= <-] _ Hpo'. congruence.
  - eexists _, _. split; [done|]. split; [done|]. split; [done|]. done.
Qed.

End ContainerFacts.

(** * Facts about the update scheduler *)

Section UpdateManagerFacts.
Import UpdateManager.

(** [_start], written out: the guard reads [this.running], which the class
    does not declare, so the body always runs. *)
Lemma start_unfold now m :
  _start now m =
  mk true (_frameRate m) (_frameCount m) (_frameDelta m) (_lastDelta m)
     now 0 (_initTime m) (S (scheduled m))
     (emitted m ++ [willStart (_initTime m); didStart (_initTime m) now]).
Proof. unfold _start, emit, requestAnimationFrame. cbn. by rewrite <- app_assoc. Qed.

(** One frame while the loop is running: one tick, rescheduled. *)
Lemma frame_running d m n :
  _running m = true → scheduled m = S n →
  _running (frame d m) = true ∧ scheduled (frame d m) = S n ∧
  _frameCount (frame d m) = increment (_frameCount m) ∧
  see <$> emitted (frame d m) =
    (see <$> emitted m) ++
    [WillUpdate (_frameCount m); DidUpdate (increment (_frameCount m))].
Proof.
  intros Hr Hs. unfold frame, _update, emit, requestAnimationFrame. rewrite Hs.
  cbn -[increment]. rewrite Hr. cbn -[increment].
  repeat split; try done. by rewrite <- app_assoc, fmap_app.
Qed.



Lemma frames_cons d ds m : frames (d :: ds) m = frames ds (frame d m).
Proof. done. Qed.

Lemma frames_idle ds m : scheduled m = 0%nat → frames ds m = m.
Proof.
  intros Hs. induction ds as [|d ds IH]; cbn; [done|].
  unfold frame at 2. rewrite Hs. exact IH.
Qed.


(** C6 on the code: a second [_start] while the loop is running.  Whatever
    [_running] holds, [_start] emits [willStart] and [didStart], takes a new
    start time, zeroes the elapsed time and schedules one more callback; so
    after [_start] at 100 and [_start] at 250 on a new manager both pairs of
    events are on the bus, the start time is 250 and two callbacks are
    pending. *)
Theorem start_while_running_restarts (now : float) (m : t) :
  _start now m =
    mk true (_frameRate m) (_frameCount m) (_frameDelta m) (_lastDelta m)
       now 0 (_initTime m) (S (scheduled m))
       (emitted m ++ [willStart (_initTime m); didStart (_initTime m) now]) ∧
  let m1 := _start 100 (new 0) in
  let m2 := _start 250 m1 in
  _running m1 = true ∧
  see <$> emitted m2 = [WillStart; DidStart; WillStart; DidStart] ∧
  _startTime m2 = 250%float ∧
  scheduled m2 = 2%nat.
Proof. split; [apply start_unfold|]. repeat split. Qed.

End UpdateManagerFacts.

(** * The theorems at concrete inputs *)

Section Concrete.
Import Examples.

(** C3 at the three fresh objects [1], [2], [3] registered in that order on
    a new game: they receive 0, 1, 2. *)
Lemma add_ids_unique_increasing_witness :
  0 ≤ _index (new_game fresh) ∧
  _index (new_game fresh) + 3 ≤ two_53 ∧
  ObjectManager.assigned_ids (new_game fresh)
    (ObjectManager.Add ∘ VObj <$> [1; 2; 3]%nat)
  = [(1%nat, 0); (2%nat, 1); (3%nat, 2)] ∧
  StronglySorted Z.lt [0; 1; 2].
Proof.
  split; [done|]. split; [done|].
  destruct (add_ids_unique_increasing (new_game fresh)
              (ObjectManager.Add ∘ VObj <$> [1; 2; 3]%nat) [1; 2; 3]%nat)
    as [(Hsorted & _ & _) Hdistinct]; [done..|].
  destruct Hdistinct as [Hids _].
  - repeat constructor; rewrite ?elem_of_cons, ?elem_of_nil; lia.
  - intros x Hx.
    repeat (apply elem_of_cons in Hx as [->|Hx]; [reflexivity|]).
    by apply elem_of_nil in Hx.
  - rewrite Hids in Hsorted. split; [exact Hids|exact Hsorted].
Defined.

(** C3 as stated fails: on a game whose counter has reached 2^53 the
    increment no longer raises it, and the three objects [1], [2], [3],
    registered in that order, all receive the id 2^53. *)
Lemma ids_repeat_at_two_53 :
  (∀ x, x ∈ [1; 2; 3]%nat → ObjectManager.accepts worn_out (VObj x) = true) ∧
  ObjectManager.assigned_ids worn_out (ObjectManager.Add ∘ VObj <$> [1; 2; 3]%nat)
  = [(1%nat, two_53); (2%nat, two_53); (3%nat, two_53)] ∧
  _index (ObjectManager.run worn_out (ObjectManager.Add ∘ VObj <$> [1; 2; 3]%nat))
  = two_53 ∧
  ¬ NoDup [two_53; two_53; two_53] ∧
  ¬ StronglySorted Z.lt [two_53; two_53; two_53].
Proof.
  split.
  { intros x Hx.
    repeat (apply elem_of_cons in Hx as [->|Hx]; [reflexivity|]).
    by apply elem_of_nil in Hx. }
  split; [by vm_compute|]. split; [by vm_compute|]. split.
  - intros Hnd. apply NoDup_cons in Hnd as [Hnot _]. apply Hnot. left.
  - intros Hs. apply StronglySorted_inv in Hs as [_ Hall].
    apply Forall_cons in Hall as [Hlt _]. lia.
Qed.

(** C4 at the stage [1] of the example game, shown by the viewport [2]. *)
Lemma destroy_removes_and_unbinds_witness :
  heap_of the_game !! 1%nat = Some the_stage ∧
  ∃ g', ObjectManager._destroy the_game (VObj 1%nat) = Ok (g', VObj 1%nat) ∧
        (1%nat ∉ _store g') ∧ (1%nat ∉ _stages g') ∧
        heap_of g' !! 2%nat = Some (setStage None the_viewport) ∧
        setup_stage g' = None ∧
        emitted g' = [didDestroy (VObj 1%nat)].
Proof.
  split; [reflexivity|].
  destruct (destroy_removes_and_unbinds the_game 1%nat the_stage eq_refl)
    as (g' & Hd & Hstore & _ & _ & Hstage & Hev & _).
  destruct (Hstage eq_refl) as (Hstages & Hunbind & _ & Hsetup).
  exists g'. split; [exact Hd|]. split; [exact Hstore|]. split; [exact Hstages|].
  split; [|split; [exact Hsetup|exact Hev]].
  apply (Hunbind 2%nat the_viewport); [left|reflexivity|reflexivity].
Defined.

(** C4 as stated fails: the viewport [2] of the example game is bound to
    the stage [1]; once the viewport has been destroyed it is no longer in
    [_viewports], and destroying the stage leaves its binding in place. *)
Lemma destroyed_viewport_keeps_stage :
  ∃ g1 g2,
    ObjectManager._destroy the_game (VObj 2%nat) = Ok (g1, VObj 2%nat) ∧
    1%nat ∈ _store g1 ∧
    ObjectManager._destroy g1 (VObj 1%nat) = Ok (g2, VObj 1%nat) ∧
    instanceof (heap_of g1) (VObj 1%nat) instanceof_Stage = true ∧
    instanceof (heap_of g1) (VObj 2%nat) instanceof_Viewport = true ∧
    stage <$> heap_of g1 !! 2%nat = Some (Some 1%nat) ∧
    stage <$> heap_of g2 !! 2%nat = Some (Some 1%nat).
Proof.
  do 2 eexists. split; [reflexivity|]. split; [by vm_compute; left|].
  split; [by vm_compute|]. by vm_compute.
Qed.



(** C10 at the object literal [3], which carries the id of the viewport
    [2]. *)
Lemma destroy_filters_by_id_witness :
  heap_of the_game !! 3%nat = Some stand_in ∧
  ∃ g', ObjectManager._destroy the_game (VObj 3%nat) = Ok (g', VObj 3%nat) ∧
        _store g' = [1; 4; 5; 6; 7]%nat ∧
        _viewports g' = [2%nat] ∧
        emitted g' = [didDestroy (VObj 3%nat)].
Proof.
  split; [reflexivity|].
  destruct (destroy_filters_by_id the_game 3%nat stand_in eq_refl)
    as (g' & Hd & Hstore & _ & Hviewports & _ & Hev & _).
  exists g'. split; [exact Hd|]. split; [exact Hstore|].
  split; [exact Hviewports|exact Hev].
Defined.

(** C10 as stated fails: destroying the object literal [3] removes the
    viewport [2], which has the same id, from the store and leaves it in
    the Viewport subset. *)
Lemma stand_in_leaves_viewport_listed :
  ∃ g', ObjectManager._destroy the_game (VObj 3%nat) = Ok (g', VObj 3%nat) ∧
        id_of (heap_of the_game) 2%nat = id_of (heap_of the_game) 3%nat ∧
        2%nat ∈ _store the_game ∧
        (2%nat ∉ _store g') ∧
        2%nat ∈ _viewports g'.
Proof.
  eexists. split; [reflexivity|]. split; [reflexivity|].
  split; [right; left|]. split; [|left].
  vm_compute. intros H.
  repeat (apply elem_of_cons in H as [H|H]; [discriminate|]).
  by apply elem_of_nil in H.
Qed.

(** C1 at the example of the specification: the root [4] at (10, 10) with
    alpha 1 and scale 1, its child [5] at (5, 5) with alpha 0.5 and scale 2;
    after the pass over [4] then [5] the child's snapshot is
    (15, 15, 0.5, 2). *)
Lemma calculateDerived_composes_witness :
  ∃ h1, Container.calculateDerived objects 4%nat = Ok h1 ∧
  h1 !! 5%nat = Some C ∧
  ∃ h2, Container.calculateDerived h1 5%nat = Ok h2 ∧
        Container.derive_pass objects [4; 5]%nat = Ok h2 ∧
        derived <$> h2 !! 5%nat = Some (Derived.mk 15 15 0.5 2).
Proof.
  set (h1 := <[4%nat := set_derived (Derived.mk 10 10 1 1) R]> objects).
  assert (H5 : h1 !! 5%nat = Some C) by (vm_compute; reflexivity).
  assert (H4 : h1 !! 4%nat = Some (set_derived (Derived.mk 10 10 1 1) R))
    by (vm_compute; reflexivity).
  exists h1. split; [reflexivity|]. split; [exact H5|].
  destruct (calculateDerived_composes h1 5%nat C H5)
    as (h2 & d & Hcalc & Hh2 & _ & Hcomp).
  destruct (Hcomp 4%nat (set_derived (Derived.mk 10 10 1 1) R) eq_refl)
    as (_ & Hx & Hy & Ha & Hs); [lia|exact H4|reflexivity|].
  exists h2. split; [exact Hcalc|]. split.
  - unfold Container.derive_pass. cbn [foldl]. exact Hcalc.
  - rewrite Hh2, lookup_insert_eq. cbn. f_equal.
    destruct d as [dx dy da ds]. cbn in Hx, Hy, Ha, Hs. by subst.
Defined.

(** C2 at the entity [6], held by the container [5], attached to the empty
    container [7]. *)
Lemma reattach_moves_child_witness :
  ∃ g' oA' oB' oe',
    Container.child_add the_game 7%nat (VObj 6%nat) = Ok (g', true) ∧
    heap_of g' !! 5%nat = Some oA' ∧ (6%nat ∉ children oA') ∧
    heap_of g' !! 7%nat = Some oB' ∧ children oB' = [6%nat] ∧
    heap_of g' !! 6%nat = Some oe' ∧ parent oe' = Some 7%nat.
Proof.
  apply (reattach_moves_child the_game 5%nat 7%nat 6%nat leaf C B);
    try reflexivity; [lia|].
  cbn. apply not_elem_of_nil.
Defined.



(** C7 on the example game: the object literal [3] and the stored stage
    [1] are refused by [add], the viewport [2] is refused as a child of the
    container [7]. *)
Lemma validation_rejections_leave_state_witness :
  (∃ g' ret, ObjectManager.add the_game (VObj 3%nat) = Ok (g', ret) ∧
             truthy ret = false ∧ only_warned the_game g') ∧
  (∃ g' ret, ObjectManager.add the_game (VObj 1%nat) = Ok (g', ret) ∧
             truthy ret = false ∧ length (_store g') = 6%nat) ∧
  (∃ g', Container.child_add the_game 7%nat (VObj 2%nat) = Ok (g', false) ∧
         only_warned the_game g').
Proof.
  destruct (validation_rejections_leave_state the_game) as (Hbase & Hdup & Hent).
  split; [|split].
  - apply (Hbase (VObj 3%nat)). reflexivity.
  - destruct (Hdup 1%nat) as (g' & ret & Hadd & Hret & _ & Hlen & _); [left|].
    exists g', ret. split; [exact Hadd|]. split; [exact Hret|exact Hlen].
  - destruct (Hent 7%nat B (VObj 2%nat)) as (g' & _ & Hadd & Hw); try reflexivity.
    exists g'. split; [exact Hadd|exact Hw].
Defined.

(** The example heap is a forest. *)
Lemma objects_single_parent : Container.single_parent objects.
Proof.
  split.
  - intros c oc Hc. apply elem_of_list_to_map_2 in Hc.
    repeat (apply elem_of_cons in Hc as [Hc|Hc];
            [injection Hc as -> ->; cbn; split;
             [repeat constructor; rewrite ?elem_of_nil; tauto
             |intros e He;
              repeat (apply elem_of_cons in He as [->|He];
                      [eexists; split; reflexivity|]);
              by apply elem_of_nil in He]|]).
    by apply elem_of_nil in Hc.
  - intros e oe p He Hp. apply elem_of_list_to_map_2 in He.
    repeat (apply elem_of_cons in He as [He|He];
            [injection He as -> ->; cbn in Hp;
             first [discriminate
                   |injection Hp as <-; eexists; split; [reflexivity|];
                    split; [reflexivity|cbn; left]]|]).
    by apply elem_of_nil in He.
Qed.

(** C9 on the example game: [5] moved under [7], detached from it, then
    the root [4] attached under [5]. *)
Lemma attach_detach_keep_single_parent_witness :
  Container.single_parent (heap_of the_game) ∧
  Container.single_parent
    (heap_of (Container.run the_game
                [Container.Attach 7%nat (VObj 5%nat);
                 Container.Detach 7%nat 5%nat;
                 Container.Attach 5%nat (VObj 4%nat)])).
Proof.
  split; [exact objects_single_parent|].
  apply (attach_detach_keep_single_parent the_game). exact objects_single_parent.
Defined.

(** C9 as stated fails: the container [5] is a descendant of the root [4];
    attaching [4] as a child of [5] is accepted, and [4] is then its own
    ancestor. *)
Lemma attach_under_descendant_accepted :
  Container.ancestor (heap_of the_game) 4%nat 5%nat ∧
  ∃ g', Container.child_add the_game 5%nat (VObj 4%nat) = Ok (g', true) ∧
        Container.ancestor (heap_of g') 4%nat 4%nat.
Proof.
  split.
  - eapply Container.ancestor_parent; reflexivity.
  - eexists. split; [reflexivity|].
    eapply Container.ancestor_step; [vm_compute; reflexivity|reflexivity|].
    eapply Container.ancestor_parent; [vm_compute; reflexivity|reflexivity].
Qed.

End Concrete.

(** * Further facts about the registry *)

Section RegistryFacts.
Import ObjectManager Registry.

Lemma get_filter g (f : ref → bool) :
  get g (Some f) = filter (λ y, f y = true) (_store g).
Proof.
  cbn. induction (_store g) as [|y l IH]; [done|].
  cbn [List.filter]. rewrite filter_cons. destruct (f y) eqn:Hf.
  - rewrite decide_True by done. by f_equal.
  - rewrite decide_False by done. done.
Qed.

Lemma filter_ext_elem {A} (P Q : A → Prop)
    `{!∀ a, Decision (P a)} `{!∀ a, Decision (Q a)} (l : list A) :
  (∀ a, a ∈ l → (P a ↔ Q a)) → filter P l = filter Q l.
Proof.
  induction l as [|a l IH]; intros Hext; [done|].
  rewrite !filter_cons.
  rewrite IH by (intros b Hb; apply Hext; by right).
  destruct (decide (P a)) as [HP|HP].
  - rewrite decide_True; [done|]. apply Hext; [left|done].
  - rewrite decide_False; [done|]. intros HQ. apply HP, Hext; [left|done].
Qed.

Lemma filter_all {A} (P : A → Prop) `{!∀ a, Decision (P a)} (l : list A) :
  (∀ a, a ∈ l → P a) → filter P l = l.
Proof.
  induction l as [|a l IH]; intros Hall; [done|].
  rewrite filter_cons, decide_True by (apply Hall; left).
  f_equal. apply IH. intros b Hb. apply Hall. by right.
Qed.

Lemma is_a_alter_set__id (h : heap) v r K y :
  is_a (alter (set__id v) r h) K y = is_a h K y.
Proof.
  unfold is_a, instanceof. rewrite lookup_alter.
  case_decide; [subst|done]. by destruct (h !! y).
Qed.

(** The heap after [_destroy]: the same cells, with the same class and id. *)
Lemma unbind_all_same x l (h : heap) k :
  unbind_all x l h !! k = None ∧ h !! k = None ∨
  ∃ o o', unbind_all x l h !! k = Some o' ∧ h !! k = Some o ∧
          cls o' = cls o ∧ _id o' = _id o.
Proof.
  rewrite unbind_all_lookup. destruct (h !! k) as [o|]; [right|by left].
  eexists _, _. split; [done|]. split; [done|]. by case_bool_decide.
Qed.

Lemma is_a_unbind_all x l (h : heap) K y :
  is_a (unbind_all x l h) K y = is_a h K y.
Proof.
  unfold is_a, instanceof.
  destruct (unbind_all_same x l h y) as [[-> ->]|(o & o' & -> & -> & Hc & _)];
    [done|by rewrite Hc].
Qed.

Lemma consistent_new h : pristine h → consistent (new_game h).
Proof.
  intros Hp. unfold consistent. cbn. split; [constructor|].
  split; [by intros y ?%elem_of_nil|].
  split; [intros y o i Hy Hi; rewrite (Hp _ _ Hy) in Hi; done|].
  split; [intros y z oy oz i Hy _ Hi; rewrite (Hp _ _ Hy) in Hi; done|done].
Qed.

(** An accepted [add] keeps the manager consistent while the counter is
    below 2^53, where [++] still raises it. *)
Lemma consistent_add_accepted g r o :
  consistent g → 0 ≤ _index g < two_53 →
  heap_of g !! r = Some o → instanceof_Base (cls o) = true →
  r ∉ _store g →
  ∀ g' v, add g (VObj r) = Ok (g', v) → consistent g'.
Proof.
  intros (Hnd & Hst & Hlt & Hinj & HV & HS) Hrange Hr Hb Hs g' v.
  rewrite (add_accepted _ _ _ Hr Hb Hs).
  rewrite increment_exact by (unfold two_53 in *; lia). intros [= <- _].
  unfold consistent. rewrite !get_filter in *.
  cbn [heap_of _index _store _viewports _stages].
  assert (Hlk : ∀ y o', alter (set__id (Some (_index g))) r (heap_of g) !! y = Some o' →
            (y = r ∧ o' = set__id (Some (_index g)) o) ∨
            (y ≠ r ∧ heap_of g !! y = Some o')).
  { intros y o'. rewrite lookup_alter. case_decide as Hy.
    - subst y. rewrite Hr. cbn. intros [= <-]. by left.
    - intros ?. right. split; [congruence|done]. }
  split; [|split; [|split; [|split; [|split]]]].
  - apply NoDup_app. split; [done|]. split; [|apply NoDup_singleton].
    intros y Hy ->%list_elem_of_singleton. done.
  - intros y [Hy| ->%list_elem_of_singleton]%elem_of_app.
    + destruct (Hst _ Hy) as (oy & i & Hoy & Hby & Hi).
      rewrite lookup_alter_ne by (intros ->; done). by exists oy, i.
    + rewrite lookup_alter_eq, Hr. cbn. by eexists _, _.
  - intros y o' i [[-> ->]|[_ Hy]]%Hlk; cbn.
    + intros [= <-]. lia.
    + intros Hi. specialize (Hlt _ _ _ Hy Hi). lia.
  - intros y z oy oz i [[-> ->]|[Hyr Hy]]%Hlk [[-> ->]|[Hzr Hz]]%Hlk; cbn; try done.
    + intros [= <-] Hi. specialize (Hlt _ _ _ Hz Hi). lia.
    + intros Hi [= <-]. specialize (Hlt _ _ _ Hy Hi). lia.
    + by apply Hinj.
  - rewrite filter_app, filter_cons, filter_nil.
    rewrite (filter_ext_elem _ (λ y, is_a (heap_of g) instanceof_Viewport y = true))
      by (intros; by rewrite is_a_alter_set__id).
    rewrite <- HV. rewrite is_a_alter_set__id. unfold is_a at 1. cbn. rewrite Hr.
    destruct (instanceof_Viewport (cls o)).
    + by rewrite decide_True.
    + rewrite decide_False by done. by rewrite app_nil_r.
  - rewrite filter_app, filter_cons, filter_nil.
    rewrite (filter_ext_elem _ (λ y, is_a (heap_of g) instanceof_Stage y = true))
      by (intros; by rewrite is_a_alter_set__id).
    rewrite <- HS. rewrite is_a_alter_set__id. unfold is_a at 1. cbn. rewrite Hr.
    destruct (instanceof_Stage (cls o)).
    + by rewrite decide_True.
    + rewrite decide_False by done. by rewrite app_nil_r.
Qed.

(** On a consistent manager the id test of [_destroy] singles out the
    object itself. *)
Lemma differs_is_other g x o (l : list ref) :
  consistent g → heap_of g !! x = Some o → (∀ y, y ∈ l → y ∈ _store g) →
  filter (differs (heap_of g) (_id o)) l = filter (λ y, y ≠ x) l.
Proof.
  intros (_ & Hst & _ & Hinj & _) Hx Hl. apply filter_ext_elem.
  intros y Hy. destruct (Hst _ (Hl _ Hy)) as (oy & i & Hoy & _ & Hi).
  unfold differs, id_of. rewrite Hoy. cbn. rewrite Hi. split.
  - intros Hd ->. rewrite Hx in Hoy. injection Hoy as ->. done.
  - intros Hne Hid. apply Hne. symmetry. by eapply Hinj.
Qed.

Lemma filter_comm {A} (P Q : A → Prop)
    `{!∀ a, Decision (P a)} `{!∀ a, Decision (Q a)} (l : list A) :
  filter P (filter Q l) = filter Q (filter P l).
Proof. rewrite !list_filter_filter. apply list_filter_iff. tauto. Qed.

Lemma consistent_destroy_object g x o :
  consistent g → heap_of g !! x = Some o →
  ∃ g', _destroy g (VObj x) = Ok (g', VObj x) ∧
        _store g' = filter (λ y, y ≠ x) (_store g) ∧
        _viewports g' = filter (λ y, y ≠ x) (_viewports g) ∧
        _stages g' = filter (λ y, y ≠ x) (_stages g) ∧
        _index g' = _index g ∧
        consistent g'.
Proof.
  intros Hc Hx. pose proof Hc as (Hnd & Hst & Hlt & Hinj & HV & HS).
  rewrite get_filter in HV, HS.
  eexists. split; [apply (destroy_object _ _ _ Hx)|].
  cbn [heap_of _index _store _viewports _stages].
  assert (HVsub : ∀ y, y ∈ _viewports g → y ∈ _store g).
  { intros y. rewrite HV. by intros [_ ?]%list_elem_of_filter. }
  assert (HSsub : ∀ y, y ∈ _stages g → y ∈ _store g).
  { intros y. rewrite HS. by intros [_ ?]%list_elem_of_filter. }
  assert (Hstore : filter (differs (heap_of g) (_id o)) (_store g)
                   = filter (λ y, y ≠ x) (_store g))
    by (by apply differs_is_other).
  assert (Hviewports :
    (if instanceof_Viewport (cls o)
     then filter (differs (heap_of g) (_id o)) (_viewports g) else _viewports g)
    = filter (λ y, y ≠ x) (_viewports g)).
  { destruct (instanceof_Viewport (cls o)) eqn:HisV; [by apply differs_is_other|].
    symmetry. apply filter_all. intros y Hy ->. rewrite HV in Hy.
    apply list_elem_of_filter in Hy as [Hy _].
    unfold is_a, instanceof in Hy. rewrite Hx in Hy. congruence. }
  assert (Hstages :
    (if instanceof_Stage (cls o)
     then filter (differs (heap_of g) (_id o)) (_stages g) else _stages g)
    = filter (λ y, y ≠ x) (_stages g)).
  { destruct (instanceof_Stage (cls o)) eqn:HisS; [by apply differs_is_other|].
    symmetry. apply filter_all. intros y Hy ->. rewrite HS in Hy.
    apply list_elem_of_filter in Hy as [Hy _].
    unfold is_a, instanceof in Hy. rewrite Hx in Hy. congruence. }
  rewrite Hstore, Hviewports, Hstages.
  do 4 (split; [done|]).
  set (h' := if instanceof_Stage (cls o)
             then unbind_all x (filter (λ y, y ≠ x) (_viewports g)) (heap_of g)
             else heap_of g).
  assert (Hsame : ∀ k,
    h' !! k = None ∧ heap_of g !! k = None ∨
    ∃ o0 o', h' !! k = Some o' ∧ heap_of g !! k = Some o0 ∧
             cls o' = cls o0 ∧ _id o' = _id o0).
  { intros k. unfold h'. destruct (instanceof_Stage (cls o)); [apply unbind_all_same|].
    destruct (heap_of g !! k) as [o0|]; [right|by left]. by exists o0, o0. }
  assert (His : ∀ K y, is_a h' K y = is_a (heap_of g) K y).
  { intros K y. unfold is_a, instanceof.
    destruct (Hsame y) as [[-> ->]|(o0 & o' & -> & -> & Hcls & _)]; [done|].
    by rewrite Hcls. }
  unfold consistent. rewrite !get_filter.
  cbn [heap_of _index _store _viewports _stages].
  split; [by apply NoDup_filter|]. split; [|split; [|split; [|split]]].
  - intros y [_ Hy]%list_elem_of_filter.
    destruct (Hst _ Hy) as (oy & i & Hoy & Hby & Hi).
    destruct (Hsame y) as [[_ Hn]|(o0 & o' & Ho' & Ho0 & Hcls & Hid)]; [congruence|].
    rewrite Hoy in Ho0. injection Ho0 as <-.
    exists o', i. rewrite Hcls, Hid. done.
  - intros y o' i Hy Hi.
    destruct (Hsame y) as [[Hn _]|(o0 & o'' & Ho' & Ho0 & _ & Hid)]; [congruence|].
    rewrite Hy in Ho'. injection Ho' as <-. rewrite Hid in Hi. by eapply Hlt.
  - intros y z oy oz i Hy Hz Hiy Hiz.
    destruct (Hsame y) as [[Hn _]|(oy0 & oy' & Hoy' & Hoy0 & _ & Hidy)]; [congruence|].
    destruct (Hsame z) as [[Hn _]|(oz0 & oz' & Hoz' & Hoz0 & _ & Hidz)]; [congruence|].
    rewrite Hy in Hoy'. injection Hoy' as <-. rewrite Hz in Hoz'. injection Hoz' as <-.
    rewrite Hidy in Hiy. rewrite Hidz in Hiz. by eapply Hinj.
  - rewrite HV, filter_comm. apply filter_ext_elem. intros y _. by rewrite His.
  - rewrite HS, filter_comm. apply filter_ext_elem. intros y _. by rewrite His.
Qed.

Lemma consistent_run_call g c :
  consistent g → 0 ≤ _index g < two_53 → consistent (run_call g c).
Proof.
  intros Hc Hrange. destruct c as [v|v]; unfold run_call.
  - destruct (accepts g v) eqn:Ha.
    + destruct (accepts_inv _ _ Ha) as (r & o & -> & Hr & Hb & Hs).
      destruct (add g (VObj r)) as [[g' ret]|] eqn:Hadd; [|done].
      by eapply consistent_add_accepted.
    + by destruct (add_rejected _ _ Ha) as (m & s & ->).
  - destruct v as [| |b|n|z|x].
    1-2: cbn; destruct (_store g) eqn:Hs; [|done];
         destruct g; cbn in *; by subst.
    1-3: cbn; pose proof Hc as (Hnd & Hst & Hlt & Hinj & HV & HS);
         rewrite (filter_differs_None g (_store g));
         [by destruct g|];
         intros y Hy; destruct (Hst _ Hy) as (oy & i & Hoy & _ & Hi);
         unfold id_of; rewrite Hoy; cbn; by rewrite Hi.
    destruct (heap_of g !! x) as [o|] eqn:Hx; [|by cbn; rewrite Hx].
    destruct (consistent_destroy_object _ _ _ Hc Hx) as (g' & -> & _ & _ & _ & _ & Hc').
    done.
Qed.

(** Consistency lasts as long as the counter has room for the calls. *)
Lemma consistent_run g cs :
  consistent g → 0 ≤ _index g → _index g + Z.of_nat (length cs) ≤ two_53 →
  consistent (run g cs).
Proof.
  unfold run. revert g.
  induction cs as [|c cs IH]; intros g Hc H0 Hb; cbn [foldl]; [done|].
  cbn [length] in Hb.
  assert (Hrange : 0 ≤ _index g < two_53) by lia.
  assert (Hi : _index g ≤ _index (run_call g c) ≤ _index g + 1).
  { destruct (run_call_assigned g c) as [[_ ->]|(r & _ & ->)]; [lia|].
    rewrite increment_exact by (unfold two_53 in *; lia). lia. }
  apply IH; [by apply consistent_run_call|lia..].
Qed.

(** X1.  Every manager reached from a new game by at most 2^53 [add] and
    [_destroy] calls, over objects that had no id to begin with, is
    consistent: the store lists each object once, stored objects have
    pairwise different ids, all below [_index], and the Viewport and Stage
    subsets are exactly what [get] returns for the two class filters, in
    store order. *)
Theorem reachable_managers_are_consistent (h : heap) (cs : list call) :
  pristine h →
  Z.of_nat (length cs) ≤ two_53 →
  let g := run (new_game h) cs in
  consistent g ∧
  (∀ y z, y ∈ _store g → z ∈ _store g →
     id_of (heap_of g) y = id_of (heap_of g) z → y = z) ∧
  _viewports g = get g (Some (is_a (heap_of g) instanceof_Viewport)) ∧
  _stages g = get g (Some (is_a (heap_of g) instanceof_Stage)).
Proof.
  intros Hp Hlen g.
  assert (Hc : consistent g).
  { apply consistent_run; [by apply consistent_new|done|exact Hlen]. }
  split; [done|]. destruct Hc as (_ & Hst & _ & Hinj & HV & HS).
  split; [|done]. intros y z Hy Hz.
  destruct (Hst _ Hy) as (oy & i & Hoy & _ & Hi).
  destruct (Hst _ Hz) as (oz & j & Hoz & _ & Hj).
  unfold id_of. rewrite Hoy, Hoz. cbn. rewrite Hi, Hj. intros [= ->]. by eapply Hinj.
Qed.

(** X2.  On a consistent manager, [_destroy(x)] removes [x] and nothing
    else: the store and both subsets are the former lists without [x], in
    the same order; when [x] was stored the store is one shorter; the
    manager stays consistent. *)
Theorem destroy_removes_exactly (g : game) (x : ref) (o : object) :
  consistent g → heap_of g !! x = Some o →
  ∃ g', _destroy g (VObj x) = Ok (g', VObj x) ∧
        _store g' = filter (λ y, y ≠ x) (_store g) ∧
        _viewports g' = filter (λ y, y ≠ x) (_viewports g) ∧
        _stages g' = filter (λ y, y ≠ x) (_stages g) ∧
        (x ∈ _store g → length (_store g) = S (length (_store g'))) ∧
        (x ∉ _store g → _store g' = _store g) ∧
        consistent g'.
Proof.
  intros Hc Hx.
  destruct (consistent_destroy_object _ _ _ Hc Hx) as (g' & Hd & Hs & HV & HS & _ & Hc').
  exists g'. do 4 (split; [done|]). split; [|split; [|done]].
  - rewrite Hs. destruct Hc as (Hnd & _). clear -Hnd.
    induction Hnd as [|y l Hy Hnd IH]; [by intros ?%elem_of_nil|].
    rewrite filter_cons. intros [->|Hin]%elem_of_cons.
    + rewrite decide_False by (intros ?; done). cbn. f_equal.
      rewrite filter_all; [done|]. intros a Ha ->. done.
    + rewrite decide_True by (intros ->; done). cbn. f_equal. by apply IH.
  - intros Hnot. rewrite Hs. apply filter_all. intros a Ha ->. done.
Qed.

Lemma destroy_id_of g x g' r k :
  _destroy g (VObj x) = Ok (g', r) → id_of (heap_of g') k = id_of (heap_of g) k.
Proof.
  intros Hd. destruct (heap_of g !! x) as [o|] eqn:Hx; [|by cbn in Hd; rewrite Hx in Hd].
  rewrite (destroy_object _ _ _ Hx) in Hd. injection Hd as <- _. cbn [heap_of].
  destruct (instanceof_Stage (cls o)); [apply unbind_all_id_of|done].
Qed.

(** X3.  While the counter is below 2^53, registering an object and
    destroying it straight away brings the store and both subsets back to
    what they were; the counter does not go back, and the object keeps the
    id it was given. *)
Theorem add_then_destroy_restores (g : game) (x : ref) :
  consistent g → 0 ≤ _index g < two_53 → accepts g (VObj x) = true →
  ∃ g1 g2, add g (VObj x) = Ok (g1, VUndefined) ∧
           _destroy g1 (VObj x) = Ok (g2, VObj x) ∧
           _store g2 = _store g ∧ _viewports g2 = _viewports g ∧
           _stages g2 = _stages g ∧
           _index g2 = _index g + 1 ∧
           id_of (heap_of g2) x = Some (_index g).
Proof.
  intros Hc Hrange Ha.
  destruct (accepts_inv _ _ Ha) as (r & o & [= <-] & Hx & Hb & Hs).
  pose proof (add_accepted _ _ _ Hx Hb Hs) as Hadd.
  rewrite increment_exact in Hadd by (unfold two_53 in *; lia).
  pose proof (consistent_add_accepted _ _ _ Hc Hrange Hx Hb Hs _ _ Hadd) as Hc1.
  set (g1 := mkGame _ _ _ _ _ _ _ _ _) in *.
  assert (Hx1 : heap_of g1 !! x = Some (set__id (Some (_index g)) o))
    by (by cbn; rewrite lookup_alter_eq, Hx).
  destruct (consistent_destroy_object _ _ _ Hc1 Hx1)
    as (g2 & Hd & Hst & HV & HS & Hi & _).
  exists g1, g2. split; [exact Hadd|]. split; [exact Hd|].
  rewrite Hst, HV, HS, Hi, (destroy_id_of _ _ _ _ _ Hd).
  destruct Hc as (_ & _ & _ & _ & HVg & HSg). rewrite get_filter in HVg, HSg.
  assert (Hnot : ∀ l : list ref, (∀ y, y ∈ l → y ∈ _store g) →
            filter (λ y, y ≠ x) l = l).
  { intros l Hl. apply filter_all. intros y Hy ->. by apply Hs, Hl. }
  assert (Hsnoc : ∀ l : list ref, (∀ y, y ∈ l → y ∈ _store g) →
            filter (λ y, y ≠ x) (l ++ [x]) = l).
  { intros l Hl. rewrite filter_app, (Hnot l Hl), filter_cons, filter_nil.
    rewrite decide_False by (intros ?; done). apply app_nil_r. }
  assert (HVsub : ∀ y, y ∈ _viewports g → y ∈ _store g).
  { intros y. rewrite HVg. by intros [_ ?]%list_elem_of_filter. }
  assert (HSsub : ∀ y, y ∈ _stages g → y ∈ _store g).
  { intros y. rewrite HSg. by intros [_ ?]%list_elem_of_filter. }
  cbn [_store _viewports _stages _index g1].
  split; [by apply Hsnoc|].
  split; [destruct (instanceof_Viewport (cls o)); [by apply Hsnoc|by apply Hnot]|].
  split; [destruct (instanceof_Stage (cls o)); [by apply Hsnoc|by apply Hnot]|].
  split; [done|]. by unfold id_of; rewrite Hx1.
Qed.

(** X4.  Destroying a stored object and registering it again does not give
    it its old id back: it receives the current counter, which is larger,
    and moves to the end of the store. *)
Theorem reregistering_assigns_new_id (g : game) (x : ref) :
  consistent g → x ∈ _store g →
  ∃ i g1 g2, id_of (heap_of g) x = Some i ∧
             _destroy g (VObj x) = Ok (g1, VObj x) ∧
             add g1 (VObj x) = Ok (g2, VUndefined) ∧
             id_of (heap_of g2) x = Some (_index g) ∧ i < _index g ∧
             _store g2 = filter (λ y, y ≠ x) (_store g) ++ [x].
Proof.
  intros Hc Hin. pose proof Hc as (_ & Hst & Hlt & _).
  destruct (Hst _ Hin) as (o & i & Hx & Hb & Hi).
  destruct (consistent_destroy_object _ _ _ Hc Hx) as (g1 & Hd & Hs1 & _ & _ & Hi1 & Hc1).
  assert (∃ o1, heap_of g1 !! x = Some o1 ∧ cls o1 = cls o) as (o1 & Hx1 & Hcls).
  { rewrite (destroy_object _ _ _ Hx) in Hd. injection Hd as <-. cbn [heap_of].
    destruct (instanceof_Stage (cls o)); [|by exists o].
    destruct (unbind_all_same x
                (if instanceof_Viewport (cls o)
                 then filter (differs (heap_of g) (_id o)) (_viewports g)
                 else _viewports g) (heap_of g) x)
      as [[_ Hn]|(o0 & o' & Ho' & Ho0 & Hcls & _)]; [congruence|].
    exists o'. split; [done|]. congruence. }
  assert (Hnot : x ∉ _store g1).
  { rewrite Hs1. by intros [? _]%list_elem_of_filter. }
  rewrite <- Hcls in Hb.
  pose proof (add_accepted _ _ _ Hx1 Hb Hnot) as Hadd.
  exists i. eexists _, _. split; [by unfold id_of; rewrite Hx|].
  split; [exact Hd|]. split; [exact Hadd|]. cbn [heap_of _store].
  split; [|split; [by eapply Hlt|by rewrite Hs1]].
  rewrite id_of_alter_set__id, decide_True, Hx1, Hi1 by done. done.
Qed.

(** X5.  [_destroy] does not touch the scene tree.  The only change it
    makes to any object is to clear the [stage] of the registered viewports
    bound to [x], and that only when [x] is a Stage: every [parent] and
    every child list is as before, so a destroyed object stays where it
    was in its container. *)
Theorem destroy_leaves_scene_tree (g : game) (x : ref) (o : object) :
  heap_of g !! x = Some o →
  ∃ g', _destroy g (VObj x) = Ok (g', VObj x) ∧
    (∀ k, heap_of g' !! k =
          (λ ok, if bool_decide (instanceof_Stage (cls o) = true ∧
                                 k ∈ _viewports g ∧ stage ok = Some x)
                 then setStage None ok else ok) <$> heap_of g !! k) ∧
    (instanceof_Stage (cls o) = false → heap_of g' = heap_of g) ∧
    (∀ k ok', heap_of g' !! k = Some ok' →
       ∃ ok, heap_of g !! k = Some ok ∧
             parent ok' = parent ok ∧ children ok' = children ok ∧
             _id ok' = _id ok ∧ cls ok' = cls ok).
Proof.
  intros Hx. eexists. split; [apply (destroy_object _ _ _ Hx)|]. cbn [heap_of].
  assert (Hlk : ∀ k,
    (if instanceof_Stage (cls o)
     then unbind_all x
            (if instanceof_Viewport (cls o)
             then filter (differs (heap_of g) (_id o)) (_viewports g)
             else _viewports g) (heap_of g)
     else heap_of g) !! k
    = (λ ok, if bool_decide (instanceof_Stage (cls o) = true ∧
                             k ∈ _viewports g ∧ stage ok = Some x)
             then setStage None ok else ok) <$> heap_of g !! k).
  { intros k. destruct (instanceof_Stage (cls o)) eqn:HS.
    - assert (instanceof_Viewport (cls o) = false) as -> by (by destruct (cls o)).
      rewrite unbind_all_lookup. destruct (heap_of g !! k) as [ok|]; cbn; [|done].
      f_equal. destruct (decide (k ∈ _viewports g ∧ stage ok = Some x)) as [H|H].
      + by rewrite !bool_decide_eq_true_2.
      + rewrite !bool_decide_eq_false_2; [done| |done]. tauto.
    - destruct (heap_of g !! k) as [ok|]; cbn; [|done].
      rewrite bool_decide_eq_false_2; [done|]. intros [? _]; done. }
  split; [exact Hlk|]. split; [by intros ->|].
  intros k ok'. rewrite Hlk. destruct (heap_of g !! k) as [ok|]; cbn; [|done].
  intros [= <-]. exists ok. split; [done|]. by case_bool_decide.
Qed.

(** X14.  Objects are listed in registration order.  After [add] calls on
    distinct objects that pass both guards, [get()] returns what it
    returned before followed by those objects in call order, and [get]
    with a filter returns its former result followed by the new objects
    that satisfy the filter, in call order. *)
Theorem get_lists_in_registration_order (g : game) (xs : list ref) :
  NoDup xs → (∀ x, x ∈ xs → accepts g (VObj x) = true) →
  let g' := run g (Add ∘ VObj <$> xs) in
  get g' None = get g None ++ xs ∧
  ∀ f, get g' (Some f) = get g (Some f) ++ List.filter f xs.
Proof.
  intros Hnd Hacc. destruct (adds_distinct g xs Hnd Hacc) as (_ & _ & Hs & _).
  cbn zeta. cbn [get]. rewrite Hs. split; [done|].
  intros f. apply List.filter_app.
Qed.

Lemma consistent_alloc g r c :
  consistent g → heap_of g !! r = None →
  consistent (set_heap (<[r := new_object c]> (heap_of g)) g).
Proof.
  intros (Hnd & Hst & Hlt & Hinj & HV & HS) Hr.
  unfold consistent. rewrite !get_filter in *.
  cbn [set_heap heap_of _index _store _viewports _stages].
  assert (Hold : ∀ y, y ∈ _store g → y ≠ r).
  { intros y Hy ->. destruct (Hst _ Hy) as (o & i & Ho & _). congruence. }
  assert (Hlk : ∀ y o', <[r := new_object c]> (heap_of g) !! y = Some o' →
            (y = r ∧ o' = new_object c) ∨ (y ≠ r ∧ heap_of g !! y = Some o')).
  { intros y o'. rewrite lookup_insert. case_decide as Hy.
    - subst y. intros [= <-]. by left.
    - intros ?. right. split; [congruence|done]. }
  assert (His : ∀ K y, y ∈ _store g →
            (is_a (<[r := new_object c]> (heap_of g)) K y = true ↔
             is_a (heap_of g) K y = true)).
  { intros K y Hy. unfold is_a, instanceof.
    by rewrite lookup_insert_ne by (intros Heq; exact (Hold y Hy (eq_sym Heq))). }
  split; [done|]. split; [|split; [|split; [|split]]].
  - intros y Hy. destruct (Hst _ Hy) as (o & i & Ho & Hb & Hi).
    exists o, i. rewrite lookup_insert_ne by (intros Heq; exact (Hold y Hy (eq_sym Heq))). done.
  - intros y o' i [[-> ->]|[_ Hy]]%Hlk; [done|]. intros Hi. by eapply Hlt.
  - intros y z oy oz i [[-> ->]|[_ Hy]]%Hlk [[-> ->]|[_ Hz]]%Hlk; try done.
    intros Hi Hj. by eapply Hinj.
  - rewrite HV. symmetry. by apply filter_ext_elem, His.
  - rewrite HS. symmetry. by apply filter_ext_elem, His.
Qed.

End RegistryFacts.

Section BaseObjectFacts.
Import ObjectManager Registry BaseObject.

(** X6.  Constructing an object of a class that extends [Base] against a
    consistent game whose counter is below 2^53 always registers it: the
    new object is in no list beforehand, so neither guard of [add] fires and
    no warning is logged; it is appended to the store with the current
    counter as its id, the counter goes up by one, no other object changes,
    and the game stays consistent. *)
Theorem constructor_registers (g : game) (c : class) :
  consistent g → 0 ≤ _index g < two_53 → instanceof_Base c = true →
  ∃ g' this,
    constructor (Some g) c = Constructed g' this ∧
    heap_of g !! this = None ∧
    _store g' = _store g ++ [this] ∧
    id_of (heap_of g') this = Some (_index g) ∧
    _index g' = _index g + 1 ∧
    warnings g' = warnings g ∧
    (∀ k, k ≠ this → heap_of g' !! k = heap_of g !! k) ∧
    consistent g'.
Proof.
  intros Hc Hrange Hb. unfold constructor.
  set (this := fresh (dom (heap_of g))).
  assert (Hfresh : heap_of g !! this = None).
  { apply not_elem_of_dom. apply is_fresh. }
  pose proof (consistent_alloc g this c Hc Hfresh) as Hc1.
  set (g1 := set_heap (<[this := new_object c]> (heap_of g)) g) in *.
  assert (Hx1 : heap_of g1 !! this = Some (new_object c))
    by (cbn; apply lookup_insert_eq).
  assert (Hnot : this ∉ _store g1).
  { cbn. intros Hin. destruct Hc as (_ & Hst & _).
    destruct (Hst _ Hin) as (o & i & Ho & _). congruence. }
  pose proof (add_accepted g1 this (new_object c) Hx1 Hb Hnot) as Hadd.
  change (_index g1) with (_index g) in Hadd.
  rewrite increment_exact in Hadd by (unfold two_53 in *; lia).
  pose proof (consistent_add_accepted _ _ _ Hc1 Hrange Hx1 Hb Hnot _ _ Hadd) as Hc2.
  rewrite Hadd. eexists _, this. split; [done|]. split; [done|].
  cbn [heap_of _store _index warnings g1 set_heap].
  split; [done|]. split; [|split; [done|split; [done|split; [|exact Hc2]]]].
  - rewrite id_of_alter_set__id, decide_True, lookup_insert_eq by done. done.
  - intros k Hk. by rewrite lookup_alter_ne, lookup_insert_ne.
Qed.

End BaseObjectFacts.

(** * Further facts about [calculateDerived] *)

Section PassFacts.
Import Container Pass.

(** The result of [calculateDerived]: a new snapshot for [this], which
    agrees with the heap as it is after the first four assignments. *)
Lemma calculateDerived_shape (h : heap) this o :
  h !! this = Some o →
  ∃ d, calculateDerived h this = Ok (<[this := set_derived d o]> h) ∧
       agrees (<[this := set_derived (own o) o]> h) o d.
Proof.
  intros Ho. unfold calculateDerived, agrees. rewrite Ho. fold (own o).
  destruct (parent o) as [p|]; [|by eexists].
  destruct (<[this := set_derived (own o) o]> h !! p) as [po|]; [|by eexists].
  destruct (instanceof_Entity (cls po)); [|by eexists].
  eexists. rewrite insert_insert_eq. split; [done|]. done.
Qed.

Lemma agrees_ext (h1 h2 : heap) o d :
  (∀ p, parent o = Some p → h1 !! p = h2 !! p) → agrees h1 o d → agrees h2 o d.
Proof.
  unfold agrees. intros Hp. destruct (parent o) as [p|]; [|done].
  by rewrite (Hp p eq_refl).
Qed.

Lemma agrees_functional (h : heap) o d1 d2 : agrees h o d1 → agrees h o d2 → d1 = d2.
Proof.
  unfold agrees. destruct (parent o) as [p|]; [|congruence].
  destruct (h !! p) as [po|]; [|congruence].
  destruct (instanceof_Entity (cls po)); congruence.
Qed.

(** X7.  [calculateDerived] starts from the object's own values every
    time, so calling it again on the heap it produced changes nothing: the
    snapshot does not accumulate from one frame to the next. *)
Theorem calculateDerived_idempotent (h h1 : heap) (this : ref) :
  calculateDerived h this = Ok h1 → calculateDerived h1 this = Ok h1.
Proof.
  intros H. destruct (h !! this) as [o|] eqn:Ho;
    [|by unfold calculateDerived in H; rewrite Ho in H].
  destruct (calculateDerived_shape h this o Ho) as (d & Hcalc & Hd).
  rewrite Hcalc in H. injection H as <-.
  set (o1 := set_derived d o).
  destruct (calculateDerived_shape (<[this := o1]> h) this o1) as (d2 & Hcalc2 & Hd2);
    [apply lookup_insert_eq|].
  rewrite Hcalc2. f_equal. rewrite insert_insert_eq in *.
  assert (Hsame : set_derived (own o1) o1 = set_derived (own o) o) by done.
  rewrite Hsame in Hd2.
  assert (d2 = d) as -> by (by eapply agrees_functional).
  done.
Qed.

Lemma derive_pass_snoc (h : heap) l n :
  derive_pass h (l ++ [n]) = (h1 ← derive_pass h l; calculateDerived h1 n).
Proof. unfold derive_pass. by rewrite foldl_app. Qed.

Lemma top_down_prefix (h : heap) l n : top_down h (l ++ [n]) → top_down h l.
Proof.
  intros [Hnd Hord]. split; [by apply NoDup_app in Hnd as (? & _)|].
  intros i m Him.
  destruct (Hord i m) as (o & Ho & Hp); [by apply lookup_app_l_Some|].
  exists o. split; [done|]. intros p Hpar. destruct (Hp p Hpar) as [Hne Hbefore].
  split; [done|]. intros j Hj. apply Hbefore. by apply lookup_app_l_Some.
Qed.

(** X8.  A top-down pass leaves a coherent set of snapshots.  When
    [calculateDerived] is called on the objects of [order], each after its
    parent, every call succeeds, no other object changes, and in the heap
    that results the snapshot of every visited object is composed from its
    own values and the snapshot its parent has in that same heap (or is its
    own values when it has no [Entity] parent). *)
Theorem top_down_pass_is_coherent (h : heap) (order : list ref) :
  top_down h order →
  ∃ h', derive_pass h order = Ok h' ∧
        (∀ k, k ∉ order → h' !! k = h !! k) ∧
        ∀ n, n ∈ order →
          ∃ o d, h !! n = Some o ∧ h' !! n = Some (set_derived d o) ∧ agrees h' o d.
Proof.
  induction order as [|n l IH] using rev_ind; intros Htd.
  { exists h. split; [done|]. split; [done|]. by intros n ?%elem_of_nil. }
  destruct (IH (top_down_prefix _ _ _ Htd)) as (h1 & Hpass & Hout & Hin).
  destruct Htd as [Hnd Hord].
  apply NoDup_app in Hnd as (Hndl & Hnl & _).
  assert (Hn : n ∉ l).
  { intros Hl. apply (Hnl _ Hl). left. }
  destruct (Hord (length l) n) as (o & Ho & Hpn).
  { by rewrite lookup_app_r, Nat.sub_diag by lia. }
  assert (Ho1 : h1 !! n = Some o) by (by rewrite Hout).
  destruct (calculateDerived_shape h1 n o Ho1) as (d & Hcalc & Hd).
  exists (<[n := set_derived d o]> h1).
  split; [by rewrite derive_pass_snoc, Hpass|]. split.
  - intros k Hk. rewrite elem_of_app, list_elem_of_singleton in Hk.
    rewrite lookup_insert_ne by (intros ->; tauto). apply Hout. tauto.
  - intros m [Hm| ->%list_elem_of_singleton]%elem_of_app.
    + destruct (Hin m Hm) as (om & dm & Hom & Hom1 & Hagr).
      assert (m ≠ n) by (intros ->; done).
      exists om, dm. split; [done|]. split; [by rewrite lookup_insert_ne|].
      apply (agrees_ext h1); [|done].
      intros p Hpar. rewrite lookup_insert_ne; [done|]. intros <-.
      apply list_elem_of_lookup in Hm as [i Hi].
      pose proof (lookup_lt_Some _ _ _ Hi) as Hlt.
      destruct (Hord i m) as (om' & Hom' & Hpm); [by apply lookup_app_l_Some|].
      rewrite Hom in Hom'. injection Hom' as <-.
      destruct (Hpm n Hpar) as [_ Hbefore].
      specialize (Hbefore (length l)).
      rewrite lookup_app_r, Nat.sub_diag in Hbefore by lia.
      specialize (Hbefore eq_refl). lia.
    + exists o, d. split; [done|]. split; [apply lookup_insert_eq|].
      apply (agrees_ext (<[n := set_derived (own o) o]> h1)); [|done].
      intros p Hpar. destruct (Hpn p Hpar) as [Hne _].
      by rewrite !lookup_insert_ne.
Qed.

End PassFacts.

(** * Further facts about the update scheduler *)

Section SchedulerFacts.
Import UpdateManager Scheduler.

Lemma ticks_with_stops_app n s1 s2 :
  ticks_with_stops n (s1 ++ s2) =
  ticks_with_stops n s1 ++ ticks_with_stops (n + Z.of_nat (length s1)) s2.
Proof.
  revert n. induction s1 as [|b s1 IH]; intros n; cbn [ticks_with_stops app length].
  - by rewrite Z.add_0_r.
  - rewrite IH. cbn. do 2 f_equal. rewrite <- app_assoc. do 3 f_equal. lia.
Qed.

(** One frame on a stopped manager with a callback pending. *)
Lemma frame_draining d m k :
  _running m = false → scheduled m = S k →
  _running (frame d m) = false ∧ scheduled (frame d m) = k ∧
  _frameCount (frame d m) = increment (_frameCount m) ∧
  emitted (frame d m) =
    emitted m ++
    [willUpdate (_frameCount m) (_frameDelta m) (_startTime m) (_elapsedTime m);
     didUpdate (increment (_frameCount m)) (d - _lastDelta m)%float (_startTime m)
               (_elapsedTime m + (d - _startTime m))%float;
     didStop (increment (_frameCount m))].
Proof.
  intros Hr Hs. unfold frame, _update, emit, requestAnimationFrame. rewrite Hs.
  cbn -[increment]. rewrite Hr. cbn -[increment].
  repeat split; try done. by rewrite <- !app_assoc.
Qed.

Lemma frames_draining ds m :
  _running m = false → (scheduled m ≤ length ds)%nat →
  0 ≤ _frameCount m → _frameCount m + Z.of_nat (scheduled m) ≤ two_53 →
  see <$> emitted (frames ds m) =
    (see <$> emitted m) ++
    ticks_with_stops (_frameCount m) (replicate (scheduled m) true) ∧
  scheduled (frames ds m) = 0%nat ∧
  _frameCount (frames ds m) = _frameCount m + Z.of_nat (scheduled m) ∧
  _running (frames ds m) = false.
Proof.
  revert m. induction ds as [|d ds IH]; intros m Hr Hlen H0 Hb.
  - cbn in Hlen. assert (Hs : scheduled m = 0%nat) by lia. rewrite Hs. cbn.
    rewrite app_nil_r. repeat split; try done. lia.
  - destruct (scheduled m) as [|k] eqn:Hs.
    + rewrite (frames_idle _ _ Hs). cbn. rewrite app_nil_r.
      repeat split; try done. lia.
    + rewrite frames_cons.
      destruct (frame_draining d m k Hr Hs) as (Hr1 & Hs1 & Hc1 & He1).
      rewrite increment_exact in Hc1, He1 by (unfold two_53 in *; lia).
      destruct (IH (frame d m) Hr1) as (He2 & Hs2 & Hc2 & Hr2).
      { rewrite Hs1. cbn in Hlen. lia. }
      { lia. }
      { rewrite Hs1, Hc1. lia. }
      rewrite He2, Hs1, Hc1, He1. repeat split; try done; [|lia].
      rewrite fmap_app, <- app_assoc. done.
Qed.

(** X9.  Stopping does not cancel what is already scheduled.  On a manager
    whose running flag is down and whose frame count has room for the
    pending callbacks below 2^53, every callback still pending runs one
    complete tick when its frame comes and then emits its own [didStop];
    after as many frames as there were callbacks nothing is pending and the
    frame count has advanced by that number.  With nothing pending no frame
    emits anything. *)
Theorem stopped_manager_drains (m : t) (ds : list float) :
  _running m = false → (scheduled m ≤ length ds)%nat →
  0 ≤ _frameCount m → _frameCount m + Z.of_nat (scheduled m) ≤ two_53 →
  see <$> emitted (frames ds m) =
    (see <$> emitted m) ++
    ticks_with_stops (_frameCount m) (replicate (scheduled m) true) ∧
  scheduled (frames ds m) = 0%nat ∧
  _frameCount (frames ds m) = _frameCount m + Z.of_nat (scheduled m) ∧
  (scheduled m = 0%nat → frames ds m = m).
Proof.
  intros Hr Hlen H0 Hb.
  destruct (frames_draining ds m Hr Hlen H0 Hb) as (He & Hs & Hc & _).
  do 3 (split; [done|]). apply frames_idle.
Qed.

(** What one call adds to the bus and to the frame count, below 2^53. *)
Lemma run_call_ticks m c :
  0 ≤ _frameCount m < two_53 →
  ∃ new stops,
    emitted (run_call m c) = emitted m ++ new ∧
    List.filter of_tick (see <$> new) = ticks_with_stops (_frameCount m) stops ∧
    _frameCount (run_call m c) = _frameCount m + Z.of_nat (length stops) ∧
    (length stops ≤ 1)%nat.
Proof.
  intros Hrange.
  assert (Hinc : increment (_frameCount m) = _frameCount m + 1)
    by (apply increment_exact; unfold two_53 in *; lia).
  destruct c as [now| |d]; cbn [run_call].
  - rewrite start_unfold. eexists _, []. cbn. split; [done|]. split; [done|].
    split; lia.
  - unfold _stop, emit. eexists _, []. cbn. split; [done|]. split; [done|].
    split; lia.
  - destruct (scheduled m) as [|k] eqn:Hs.
    + exists [], []. unfold frame. rewrite Hs, app_nil_r. cbn. split; [done|].
      split; [done|]. split; lia.
    + destruct (_running m) eqn:Hr.
      * destruct (frame_running d m k Hr Hs) as (_ & _ & Hc & He).
        rewrite Hinc in Hc, He.
        assert (∃ new, emitted (frame d m) = emitted m ++ new ∧
                       see <$> new = [WillUpdate (_frameCount m);
                                      DidUpdate (_frameCount m + 1)])
          as (new & Hnew & Hsee).
        { unfold frame, _update, emit, requestAnimationFrame.
          rewrite Hs. cbn -[increment]. rewrite Hr. cbn -[increment].
          rewrite <- app_assoc, Hinc. by eexists. }
        exists new, [false]. split; [exact Hnew|]. rewrite Hsee, Hc. cbn.
        split; [done|]. split; lia.
      * destruct (frame_draining d m k Hr Hs) as (_ & _ & Hc & He).
        rewrite Hinc in Hc, He.
        eexists _, [true]. split; [exact He|]. cbn. split; [done|]. rewrite Hc.
        split; lia.
Qed.

(** X10.  Whatever calls are made, in whatever order, on a manager whose
    frame count has room for them below 2^53 (a call runs one tick at
    most), the events on the bus only grow, and the tick events among the
    new ones are those of consecutive ticks: each [willUpdate] carries the
    frame count of the moment, the [didUpdate] after it that count plus
    one, a [didStop] the count of the [didUpdate] just before it, and the
    frame count ends higher by exactly the number of ticks run, which is at
    most the number of calls. *)
Theorem any_run_ticks_consecutively (m : t) (cs : list call) :
  0 ≤ _frameCount m → _frameCount m + Z.of_nat (length cs) ≤ two_53 →
  ∃ new stops,
    emitted (run m cs) = emitted m ++ new ∧
    List.filter of_tick (see <$> new) = ticks_with_stops (_frameCount m) stops ∧
    _frameCount (run m cs) = _frameCount m + Z.of_nat (length stops) ∧
    (length stops ≤ length cs)%nat.
Proof.
  revert m. induction cs as [|c cs IH]; intros m H0 Hb.
  - exists [], []. cbn. rewrite app_nil_r. split; [done|]. split; [done|].
    split; lia.
  - cbn [length] in Hb.
    destruct (run_call_ticks m c) as (new1 & stops1 & He1 & Hf1 & Hc1 & Hl1); [lia|].
    destruct (IH (run_call m c)) as (new2 & stops2 & He2 & Hf2 & Hc2 & Hl2); [lia..|].
    exists (new1 ++ new2), (stops1 ++ stops2).
    change (run m (c :: cs)) with (run (run_call m c) cs).
    split; [by rewrite He2, He1, <- app_assoc|]. split; [|split].
    + rewrite fmap_app, List.filter_app, Hf1, Hf2, Hc1.
      by rewrite ticks_with_stops_app.
    + rewrite Hc2, Hc1, length_app. lia.
    + rewrite length_app. cbn [length]. lia.
Qed.

Lemma frames_elapsed ds m k :
  _running m = true → scheduled m = S k →
  _elapsedTime (frames ds m) = elapsed_sum (_startTime m) (_elapsedTime m) ds ∧
  _startTime (frames ds m) = _startTime m.
Proof.
  revert m. induction ds as [|d ds IH]; intros m Hr Hs; [done|].
  rewrite frames_cons.
  destruct (frame_running d m k Hr Hs) as (Hr1 & Hs1 & _).
  destruct (IH (frame d m) Hr1 Hs1) as (He & Hst).
  assert (Hstep : _elapsedTime (frame d m) = (_elapsedTime m + (d - _startTime m))%float ∧
                  _startTime (frame d m) = _startTime m).
  { unfold frame, _update, emit, requestAnimationFrame. rewrite Hs. cbn.
    by rewrite Hr. }
  destruct Hstep as [Hel Hst1]. rewrite He, Hst, Hel, Hst1. done.
Qed.

(** X11.  [_elapsedTime] is not the time since the start.  Each tick adds
    its whole distance from the start time, so after [_start] at [now] and
    ticks at the timestamps [ds] the field holds the running sum of
    [d - now] over all of them, added up from 0 in tick order. *)
Theorem elapsed_time_is_a_running_sum (now : float) (m : t) (ds : list float) :
  _elapsedTime (frames ds (_start now m)) = elapsed_sum now 0 ds ∧
  _startTime (frames ds (_start now m)) = now.
Proof.
  destruct (frames_elapsed ds (_start now m) (scheduled m)) as [He Hs];
    [by rewrite start_unfold..|].
  rewrite He, Hs. by rewrite start_unfold.
Qed.

End SchedulerFacts.

(** * Facts about Circle *)

Section CircleFacts.
Import Circle.

Lemma or_settled a b : settled b → settled (or a b).
Proof. unfold or. intros Hb. destruct (truthy a) eqn:Ha; [by left|done]. Qed.

Lemma or_truthy a b : truthy b = true → truthy (or a b) = true.
Proof. unfold or. intros Hb. by destruct (truthy a) eqn:Ha. Qed.

Lemma settled_number n :
  settled (VNum n) → is_nan n = false ∧ (is_zero n = true → n = 0%float).
Proof.
  intros [Ht|[= ->]]; [|done].
  change (negb (is_zero n || is_nan n) = true) in Ht.
  apply negb_true_iff, orb_false_iff in Ht as [Hz Hn].
  split; [done|]. intros Hz'. congruence.
Qed.

Lemma sets_settled c chs :
  settled (x c) → settled (y c) → settled (r c) →
  settled (x (foldl set c chs)) ∧ settled (y (foldl set c chs)) ∧
  settled (r (foldl set c chs)).
Proof.
  revert c. induction chs as [|ch chs IH]; intros c Hx Hy Hr; [done|].
  cbn [foldl]. apply IH; cbn; by apply or_settled.
Qed.

(** X12.  A circle never holds a falsy value other than the constant 0 of
    its constructor, whatever it was constructed from and whatever [set]
    calls followed: each of [x], [y], [r] is truthy or is 0.  A field that
    is a number is therefore never NaN and never negative zero. *)
Theorem circle_fields_are_settled (x0 y0 r0 : value) (chs : list changes) :
  let c := foldl set (Circle x0 y0 r0) chs in
  settled (x c) ∧ settled (y c) ∧ settled (r c) ∧
  ∀ n, x c = VNum n ∨ y c = VNum n ∨ r c = VNum n →
       is_nan n = false ∧ (is_zero n = true → n = 0%float).
Proof.
  cbn zeta.
  destruct (sets_settled (Circle x0 y0 r0) chs) as (Hx & Hy & Hr);
    [apply or_settled; by right..|].
  do 3 (split; [done|]).
  intros n [Hn|[Hn|Hn]]; apply settled_number; by rewrite <- Hn.
Qed.

(** X13.  [set] cannot make a field falsy.  A change that is 0 (or NaN, or
    missing) is skipped, so [set] with only such changes returns the circle
    as it was, and a field that is truthy stays truthy through any sequence
    of [set] calls: a nonzero coordinate or radius cannot be brought back
    to 0. *)
Theorem set_keeps_truthy_fields (c : t) (chs : list changes) :
  (truthy (x c) = true → truthy (x (foldl set c chs)) = true) ∧
  (truthy (y c) = true → truthy (y (foldl set c chs)) = true) ∧
  (truthy (r c) = true → truthy (r (foldl set c chs)) = true) ∧
  (∀ ch, truthy (changes_x ch) = false → truthy (changes_y ch) = false →
         truthy (changes_r ch) = false → set c ch = c).
Proof.
  split; [|split; [|split]].
  - revert c. induction chs as [|ch chs IH]; intros c Hc; [done|].
    cbn [foldl]. apply IH. cbn. by apply or_truthy.
  - revert c. induction chs as [|ch chs IH]; intros c Hc; [done|].
    cbn [foldl]. apply IH. cbn. by apply or_truthy.
  - revert c. induction chs as [|ch chs IH]; intros c Hc; [done|].
    cbn [foldl]. apply IH. cbn. by apply or_truthy.
  - intros ch Hx Hy Hr. unfold set, or. rewrite Hx, Hy, Hr. by destruct c.
Qed.

End CircleFacts.

(** * The further facts at concrete inputs *)

Section MoreConcrete.
Import Examples MoreExamples.

Lemma fresh_is_pristine : Registry.pristine fresh.
Proof.
  intros y o Hy. apply elem_of_list_to_map_2 in Hy.
  repeat (apply elem_of_cons in Hy as [Hy|Hy]; [by injection Hy as -> ->|]).
  by apply elem_of_nil in Hy.
Qed.

Lemma registered_is_consistent : Registry.consistent registered.
Proof.
  apply consistent_run; [apply consistent_new, fresh_is_pristine|done|by vm_compute].
Qed.

(** X1 on the three fresh objects, registered, the viewport [2] then
    destroyed. *)
Lemma reachable_managers_are_consistent_witness :
  Registry.pristine fresh ∧
  4 ≤ two_53 ∧
  Registry.consistent
    (ObjectManager.run (new_game fresh)
       ((ObjectManager.Add ∘ VObj <$> [1; 2; 3]%nat)
        ++ [ObjectManager.Destroy (VObj 2%nat)])).
Proof.
  split; [exact fresh_is_pristine|]. split; [done|].
  apply (reachable_managers_are_consistent fresh);
    [exact fresh_is_pristine|by vm_compute].
Defined.

(** X2 on the registered viewport [2]. *)
Lemma destroy_removes_exactly_witness :
  Registry.consistent registered ∧
  ∃ g', ObjectManager._destroy registered (VObj 2%nat) = Ok (g', VObj 2%nat) ∧
        _store g' = [1; 3]%nat ∧ _viewports g' = [] ∧ _stages g' = [1%nat].
Proof.
  split; [exact registered_is_consistent|].
  destruct (destroy_removes_exactly registered 2%nat
              (set__id (Some 1) (new_object Viewport)) registered_is_consistent)
    as (g' & Hd & Hs & HV & HS & _); [vm_compute; reflexivity|].
  exists g'. split; [exact Hd|]. rewrite Hs, HV, HS. vm_compute. done.
Defined.

(** X3 on the fresh stage [1] and a new game. *)
Lemma add_then_destroy_restores_witness :
  0 ≤ _index (new_game fresh) < two_53 ∧
  ∃ g1 g2, ObjectManager.add (new_game fresh) (VObj 1%nat) = Ok (g1, VUndefined) ∧
           ObjectManager._destroy g1 (VObj 1%nat) = Ok (g2, VObj 1%nat) ∧
           _store g2 = [] ∧ _stages g2 = [] ∧ _index g2 = 1 ∧
           id_of (heap_of g2) 1%nat = Some 0.
Proof.
  split; [done|].
  destruct (add_then_destroy_restores (new_game fresh) 1%nat)
    as (g1 & g2 & Ha & Hd & Hs & _ & HS & Hi & Hid);
    [apply consistent_new, fresh_is_pristine|done|reflexivity|].
  exists g1, g2. do 2 (split; [done|]). rewrite Hs, HS, Hi, Hid. done.
Defined.

(** X4 on the registered stage [1], whose id was 0. *)
Lemma reregistering_assigns_new_id_witness :
  ∃ g1 g2, id_of (heap_of registered) 1%nat = Some 0 ∧
           ObjectManager._destroy registered (VObj 1%nat) = Ok (g1, VObj 1%nat) ∧
           ObjectManager.add g1 (VObj 1%nat) = Ok (g2, VUndefined) ∧
           id_of (heap_of g2) 1%nat = Some 3 ∧
           _store g2 = [2; 3; 1]%nat.
Proof.
  destruct (reregistering_assigns_new_id registered 1%nat registered_is_consistent)
    as (i & g1 & g2 & _ & Hd & Ha & Hid & _ & Hs); [vm_compute; left|].
  exists g1, g2. split; [vm_compute; reflexivity|].
  do 2 (split; [done|]). rewrite Hid, Hs. vm_compute. done.
Defined.

(** X14 on the three fresh objects and a new game, asked for the stages
    and entities. *)
Lemma get_lists_in_registration_order_witness :
  ObjectManager.get registered None = [1; 2; 3]%nat ∧
  ObjectManager.get registered
    (Some (λ y, negb (Registry.is_a (heap_of registered) instanceof_Viewport y)))
  = [1; 3]%nat.
Proof.
  destruct (get_lists_in_registration_order (new_game fresh) [1; 2; 3]%nat)
    as [Hall Hsome].
  - repeat constructor; rewrite ?elem_of_cons, ?elem_of_nil; lia.
  - intros x Hx.
    repeat (apply elem_of_cons in Hx as [->|Hx]; [reflexivity|]).
    by apply elem_of_nil in Hx.
  - split; [exact Hall|]. unfold registered. rewrite Hsome. vm_compute. reflexivity.
Defined.

(** X5 on the container [5] of the example game: destroyed, it is still
    the child of [4] and the parent of [6]. *)
Lemma destroy_leaves_scene_tree_witness :
  ∃ g', ObjectManager._destroy the_game (VObj 5%nat) = Ok (g', VObj 5%nat) ∧
        heap_of g' = heap_of the_game ∧ (5%nat ∉ _store g').
Proof.
  destruct (destroy_leaves_scene_tree the_game 5%nat C eq_refl)
    as (g' & Hd & _ & Hsame & _).
  exists g'. split; [exact Hd|]. split; [by apply Hsame|].
  assert (Hg : ObjectManager._destroy the_game (VObj 5%nat) = Ok (g', VObj 5%nat))
    by exact Hd.
  vm_compute in Hg. injection Hg as <-. vm_compute. intros H.
  repeat (apply elem_of_cons in H as [H|H]; [discriminate|]).
  by apply elem_of_nil in H.
Defined.

(** X6: a container constructed against a new game over the three fresh
    objects. *)
Lemma constructor_registers_witness :
  0 ≤ _index (new_game fresh) < two_53 ∧
  ∃ g' this,
    BaseObject.constructor (Some (new_game fresh)) Container
    = BaseObject.Constructed g' this ∧
    _store g' = [this] ∧ id_of (heap_of g') this = Some 0 ∧ warnings g' = [].
Proof.
  split; [done|].
  destruct (constructor_registers (new_game fresh) Container)
    as (g' & this & Hc & _ & Hs & Hid & _ & Hw & _);
    [apply consistent_new, fresh_is_pristine|done|reflexivity|].
  exists g', this. split; [exact Hc|]. rewrite Hs, Hid, Hw. done.
Defined.

(** X7 on the middle container [2] of the chain. *)
Lemma calculateDerived_idempotent_witness :
  ∃ h1, Container.calculateDerived chain 2%nat = Ok h1 ∧
        Container.calculateDerived h1 2%nat = Ok h1.
Proof.
  eexists. split; [reflexivity|].
  apply (calculateDerived_idempotent chain _ 2%nat). reflexivity.
Defined.

Lemma chain_is_top_down : Pass.top_down chain [1; 2; 3]%nat.
Proof.
  split.
  - repeat constructor; rewrite ?elem_of_cons, ?elem_of_nil; lia.
  - intros i n Hi.
    destruct i as [|[|[|i]]]; cbn in Hi; try discriminate; injection Hi as <-;
      (eexists; split; [reflexivity|]); cbn; intros p Hp; try discriminate;
      injection Hp as <-; (split; [lia|]);
      intros j Hj; destruct j as [|[|[|j]]]; cbn in Hj; try discriminate; lia.
Qed.

(** X8 on the chain [1], [2], [3]: the grandchild ends at
    (16, 16, 0.25, 6). *)
Lemma top_down_pass_is_coherent_witness :
  Pass.top_down chain [1; 2; 3]%nat ∧
  ∃ h', Container.derive_pass chain [1; 2; 3]%nat = Ok h' ∧
        derived <$> h' !! 3%nat = Some (Derived.mk 16 16 0.25 6).
Proof.
  split; [exact chain_is_top_down|].
  destruct (top_down_pass_is_coherent chain [1; 2; 3]%nat chain_is_top_down)
    as (h' & Hpass & _).
  exists h'. split; [exact Hpass|].
  assert (Hp : Container.derive_pass chain [1; 2; 3]%nat = Ok h') by exact Hpass.
  vm_compute in Hp. injection Hp as <-. vm_compute. reflexivity.
Defined.

(** X9 on the manager started twice and stopped: both pending callbacks
    run, each with its own [didStop]. *)
Lemma stopped_manager_drains_witness :
  UpdateManager.scheduled started_twice = 2%nat ∧
  UpdateManager._frameCount started_twice + 2 ≤ two_53 ∧
  UpdateManager.see <$>
    UpdateManager.emitted (UpdateManager.frames [266; 283; 300]%float started_twice)
  = [UpdateManager.WillStart; UpdateManager.DidStart;
     UpdateManager.WillStart; UpdateManager.DidStart; UpdateManager.WillStop;
     UpdateManager.WillUpdate 0; UpdateManager.DidUpdate 1; UpdateManager.DidStop 1;
     UpdateManager.WillUpdate 1; UpdateManager.DidUpdate 2; UpdateManager.DidStop 2].
Proof.
  split; [reflexivity|]. split; [done|].
  destruct (stopped_manager_drains started_twice [266; 283; 300]%float)
    as (He & _); [reflexivity|cbn; lia|done|done|].
  rewrite He. reflexivity.
Defined.

(** X10 on a new manager: started, one frame, stopped, one more frame. *)
Lemma any_run_ticks_consecutively_witness :
  let cs := [Scheduler.Start 0; Scheduler.Frame 16; Scheduler.Stop;
             Scheduler.Frame 33] in
  UpdateManager._frameCount (UpdateManager.new 0) + 4 ≤ two_53 ∧
  ∃ new stops,
    UpdateManager.emitted (Scheduler.run (UpdateManager.new 0) cs) = new ∧
    List.filter Scheduler.of_tick (UpdateManager.see <$> new)
    = Scheduler.ticks_with_stops 0 stops ∧
    UpdateManager._frameCount (Scheduler.run (UpdateManager.new 0) cs)
    = Z.of_nat (length stops) ∧
    (length stops ≤ 4)%nat.
Proof.
  cbn zeta. split; [done|].
  destruct (any_run_ticks_consecutively (UpdateManager.new 0)
              [Scheduler.Start 0; Scheduler.Frame 16; Scheduler.Stop;
               Scheduler.Frame 33])
    as (new & stops & He & Hf & Hc & Hl); [done|done|].
  exists new, stops. split; [exact He|]. split; [exact Hf|].
  split; [exact Hc|exact Hl].
Defined.

(** X11 on a manager started at 100 with ticks at 116 and 133: 33
    milliseconds after the start the field holds 16 + 33. *)
Lemma elapsed_time_is_a_running_sum_witness :
  UpdateManager._elapsedTime
    (UpdateManager.frames [116; 133]%float
       (UpdateManager._start 100 (UpdateManager.new 0)))
  = 49%float.
Proof.
  destruct (elapsed_time_is_a_running_sum 100 (UpdateManager.new 0) [116; 133]%float)
    as [He _].
  rewrite He. reflexivity.
Defined.

(** X13 on the circle (3, 4, 5): asked to move to x = 0 and to shrink to
    r = 0, it stays as it is. *)
Lemma set_keeps_truthy_fields_witness :
  let c := Circle.Circle (VNum 3) (VNum 4) (VNum 5) in
  Circle.set c (Circle.mkChanges (VNum 0) VUndefined (VNum 0)) = c ∧
  truthy (Circle.x (foldl Circle.set c
                      [Circle.mkChanges (VNum 0) VUndefined (VNum 0)])) = true.
Proof.
  cbn zeta.
  destruct (set_keeps_truthy_fields (Circle.Circle (VNum 3) (VNum 4) (VNum 5))
              [Circle.mkChanges (VNum 0) VUndefined (VNum 0)])
    as (Hx & _ & _ & Hid).
  split; [by apply Hid|by apply Hx].
Defined.

End MoreConcrete.
